(** * xgo: panic-to-error conversion and concurrent fan-out

    A shallow embedding of the fault-barrier helpers of package [xgo]
    ([Require], [Catch]/[Recover], [Mute], [Call], [Async]) together with
    the small part of the Go runtime and of the packages [errors] and [fmt]
    that they rest on.

    Two revisions of the package are embedded:
    - [Xgo]     : src/xgo.go            ([Catch], merges faults with [errors.Join],
                                         [Require] adds the caller's position);
    - [Part001] : src/unnamed/part_001  ([Recover], keeps the first fault);
                  src/unnamed/part_002 has the same text for every function
                  embedded here. *)

From Stdlib Require Import ZArith Lia DecimalString.
From stdpp Require Import base tactics option functions list strings.

Local Open Scope string_scope.
Local Open Scope list_scope.
Set Warnings "-register-all".

(** ** Go values *)

(** Error values (non-nil values of interface type [error]). The dynamic
    types are those this package can produce or receive from [errors] and
    [fmt]; Go's pointer identity of error values is abstracted to
    structural equality. *)
Inductive error : Type :=
| errorString (s : string)
    (* *errors.errorString: errors.New(s), fmt.Errorf without %w *)
| wrapError (msg : string) (err : option error)
    (* *fmt.wrapError: fmt.Errorf with one %w; [err] is nil when the
       operand of %w does not implement error *)
| joinError (errs : list error)
    (* *errors.joinError: errors.Join *)
| PanicNilError.
    (* *runtime.PanicNilError *)

(** A variable of interface type [error]: [None] is the nil interface. *)
Abbreviation error_var := (option error).

(** Values of type [any] that a panic may carry. *)
Inductive any : Type :=
| Nil                 (* the nil interface *)
| Str (s : string)
| Int (z : Z)
| Bool (b : bool)
| Err (e : error).

(** The type assertion [v.(error)]. *)
Definition as_error (v : any) : option error :=
  match v with
  | Err e => Some e
  | _ => None
  end.

(** Line feed and horizontal tab, as in the literal "\n\t". *)
Definition LF : string := String (Ascii.ascii_of_nat 10) "".
Definition TAB : string := String (Ascii.ascii_of_nat 9) "".

(** fmt's "%d" on an integer. *)
Definition fmt_d (z : Z) : string := NilZero.string_of_int (Z.to_int z).

(** The method [Error() string]. A joined error separates the messages of
    its members by line feeds; [errors.Join] never builds an empty one. *)
Fixpoint Error (e : error) : string :=
  match e with
  | errorString s => s
  | wrapError msg _ => msg
  | joinError errs =>
      match errs with
      | [] => ""
      | e0 :: rest =>
          (fix go (acc : string) (l : list error) : string :=
             match l with
             | [] => acc
             | x :: l' => go (acc +:+ LF +:+ Error x) l'
             end) (Error e0) rest
      end
  | PanicNilError => "panic called with nil argument"
  end.

(** fmt's "%v". *)
Definition fmt_v (v : any) : string :=
  match v with
  | Nil => "<nil>"
  | Str s => s
  | Int z => fmt_d z
  | Bool b => if b then "true" else "false"
  | Err e => Error e
  end.

(** reflect.TypeOf(v).String() for the non-error values. *)
Definition type_name (v : any) : string :=
  match v with
  | Str _ => "string"
  | Int _ => "int"
  | Bool _ => "bool"
  | _ => ""
  end.

(** fmt's "%w" inside [fmt.Errorf]: an error operand prints as with %v;
    any other operand is a bad verb, printed as %!w(type=value), and a nil
    operand as %!w(<nil>). *)
Definition fmt_w (v : any) : string :=
  match v with
  | Err e => Error e
  | Nil => "%!w(<nil>)"
  | _ => "%!w(" +:+ type_name v +:+ "=" +:+ fmt_v v +:+ ")"
  end.

(** [fmt.Errorf("%v", v)]. *)
Definition Errorf_v (v : any) : error := errorString (fmt_v v).

(** [fmt.Errorf("%w\n\t%s:%d", v, file, line)]. *)
Definition Errorf_w_at (v : any) (file : string) (line : Z) : error :=
  wrapError (fmt_w v +:+ LF +:+ TAB +:+ file +:+ ":" +:+ fmt_d line) (as_error v).

(** [errors.Join]: nil arguments are discarded; the result is nil when
    nothing is left. *)
Definition Join (errs : list error_var) : error_var :=
  match omap id errs with
  | [] => None
  | es => Some (joinError es)
  end.

(** [errors.Unwrap]: only the method [Unwrap() error] is consulted. *)
Definition Unwrap (e : error) : error_var :=
  match e with
  | wrapError _ inner => inner
  | _ => None
  end.

(** The method [Unwrap() []error] of a joined error. *)
Definition UnwrapMulti (e : error) : list error :=
  match e with
  | joinError errs => errs
  | _ => []
  end.

(** Equality of error values, [==] on the interface values. *)
Fixpoint error_eqb (a b : error) : bool :=
  match a, b with
  | errorString s, errorString t => bool_decide (s = t)
  | wrapError m x, wrapError n y =>
      bool_decide (m = n) &&
      match x, y with
      | None, None => true
      | Some x', Some y' => error_eqb x' y'
      | _, _ => false
      end
  | joinError xs, joinError ys =>
      (fix all2 (l : list error) (r : list error) : bool :=
         match l, r with
         | [], [] => true
         | x :: l', y :: r' => error_eqb x y && all2 l' r'
         | _, _ => false
         end) xs ys
  | PanicNilError, PanicNilError => true
  | _, _ => false
  end.

(** [errors.Is] for non-nil arguments: a depth-first walk of the tree
    spanned by [Unwrap() error] and [Unwrap() []error]. *)
Fixpoint Is (err target : error) : bool :=
  error_eqb err target ||
  match err with
  | wrapError _ (Some inner) => Is inner target
  | joinError errs => existsb (fun e => Is e target) errs
  | _ => false
  end.

(** ** Units of work and panics *)

(** How a call ends: it returns, or it panics and a deferred [recover()]
    would yield [r]. *)
Inductive outcome (A : Type) : Type :=
| Returned (a : A)
| Panicked (r : any).
Arguments Returned {A} a.
Arguments Panicked {A} r.

(** A unit of work [func()], represented by how running it ends. *)
Abbreviation work := (outcome unit).

(** The statement [panic(v)]. With GODEBUG panicnil=1 (and in every language
    version before Go 1.21) the value is handed to [recover()] unchanged;
    otherwise [panic(nil)] is turned into a [*runtime.PanicNilError]. *)
Definition gopanic (panicnil : bool) (v : any) : work :=
  match v with
  | Nil => if panicnil then Panicked Nil else Panicked (Err PanicNilError)
  | _ => Panicked v
  end.

(** ** Goroutine code *)

(** Addresses of variables of type [error]; a [*error] is [None] when nil. *)
Abbreviation loc := nat.
Abbreviation ptr := (option loc).

(** The code of a goroutine, as the tree of the runtime operations it
    performs. Every operation is one atomic step, and goroutines interleave
    at this grain: a read or a write of a variable of type [error] is taken
    to be indivisible, and the two reads of [*err] in [Catch] are two steps.
    The operations that follow a [Run] are the deferred calls of the
    enclosing function, in the order in which Go runs them (last deferred
    first); the wait group of [Async] is the one counter of the state. *)
Inductive prog (A : Type) : Type :=
| Ret (a : A)
| Run (fn : work) (k : prog A)                 (* fn() *)
| Rec (k : any -> prog A)                      (* recover() *)
| New (k : loc -> prog A)                      (* var err error *)
| Load (p : loc) (k : error_var -> prog A)     (* *p *)
| Store (p : loc) (v : error_var) (k : prog A) (* *p = v *)
| Add (n : nat) (k : prog A)                   (* wg.Add(n) *)
| Done (k : prog A)                            (* wg.Done() *)
| Wait (k : prog A)                            (* wg.Wait() *)
| Spawn (t : prog unit) (k : prog A).          (* go t *)
Arguments Ret {A} a.
Arguments Run {A} fn k.
Arguments Rec {A} k.
Arguments New {A} k.
Arguments Load {A} p k.
Arguments Store {A} p v k.
Arguments Add {A} n k.
Arguments Done {A} k.
Arguments Wait {A} k.
Arguments Spawn {A} t k.

Fixpoint bind {A B : Type} (m : prog A) (f : A -> prog B) : prog B :=
  match m with
  | Ret a => f a
  | Run fn k => Run fn (bind k f)
  | Rec k => Rec (fun r => bind (k r) f)
  | New k => New (fun l => bind (k l) f)
  | Load p k => Load p (fun v => bind (k v) f)
  | Store p v k => Store p v (bind k f)
  | Add n k => Add n (bind k f)
  | Done k => Done (bind k f)
  | Wait k => Wait (bind k f)
  | Spawn t k => Spawn t (bind k f)
  end.

Declare Scope prog_scope.
Delimit Scope prog_scope with prog.
Bind Scope prog_scope with prog.
Notation "x <- m ;; k" := (bind m (fun x => k))
  (at level 100, m at next level, right associativity) : prog_scope.
Notation "m ;; k" := (bind m (fun _ => k))
  (at level 100, right associativity) : prog_scope.

Definition invoke (fn : work) : prog unit := Run fn (Ret tt).
Definition recover : prog any := Rec Ret.
Definition new_var : prog loc := New Ret.
Definition load (p : loc) : prog error_var := Load p Ret.
Definition store (p : loc) (v : error_var) : prog unit := Store p v (Ret tt).
Definition wg_Add (n : nat) : prog unit := Add n (Ret tt).
Definition wg_Done : prog unit := Done (Ret tt).
Definition wg_Wait : prog unit := Wait (Ret tt).
Definition go (t : prog unit) : prog unit := Spawn t (Ret tt).

(** [for _, f := range fn { body(f) }]. *)
Fixpoint range {X : Type} (fn : list X) (body : X -> prog unit) : prog unit :=
  match fn with
  | [] => Ret tt
  | f :: rest => (body f ;; range rest body)%prog
  end.

(** ** Machine state *)

(** What goroutines share: the variables of type [error], the next free
    address, and the counter of the wait group. *)
Record shared : Type := Shared {
  heap : loc -> error_var;
  next : loc;
  wg : Z
}.

(** One atomic step of a goroutine whose remaining code is [p] and whose
    panic in flight, if any, is [pan]. The result is the remaining code, the
    panic in flight, the shared state and the goroutines launched by the
    step. [None]: the goroutine has finished, or is blocked in [wg.Wait()]. *)
Definition step1 {A : Type} (p : prog A) (pan : option any) (sh : shared)
  : option (prog A * option any * shared * list (prog unit)) :=
  match p with
  | Ret _ => None
  | Run fn k =>
      Some (k, match fn with Returned _ => pan | Panicked r => Some r end, sh, [])
  | Rec k =>
      Some (k (default Nil pan), None, sh, [])
  | New k =>
      Some (k (next sh),
            pan,
            Shared (<[next sh := None]> (heap sh)) (S (next sh)) (wg sh),
            [])
  | Load l k =>
      Some (k (heap sh l), pan, sh, [])
  | Store l v k =>
      Some (k, pan, Shared (<[l := v]> (heap sh)) (next sh) (wg sh), [])
  | Add n k =>
      Some (k, pan, Shared (heap sh) (next sh) (wg sh + Z.of_nat n), [])
  | Done k =>
      Some (k, pan, Shared (heap sh) (next sh) (wg sh - 1), [])
  | Wait k =>
      if bool_decide (wg sh = 0)%Z then Some (k, pan, sh, []) else None
  | Spawn t k =>
      Some (k, pan, sh, [t])
  end.

(** Running a goroutine to its end when nothing else runs and it launches
    nothing. *)
Fixpoint exec {A : Type} (p : prog A) (pan : option any) (sh : shared)
  : option (A * option any * shared) :=
  match p with
  | Ret a => Some (a, pan, sh)
  | Run fn k =>
      exec k (match fn with Returned _ => pan | Panicked r => Some r end) sh
  | Rec k => exec (k (default Nil pan)) None sh
  | New k =>
      exec (k (next sh)) pan
           (Shared (<[next sh := None]> (heap sh)) (S (next sh)) (wg sh))
  | Load l k => exec (k (heap sh l)) pan sh
  | Store l v k => exec k pan (Shared (<[l := v]> (heap sh)) (next sh) (wg sh))
  | Add n k => exec k pan (Shared (heap sh) (next sh) (wg sh + Z.of_nat n))
  | Done k => exec k pan (Shared (heap sh) (next sh) (wg sh - 1))
  | Wait k => if bool_decide (wg sh = 0)%Z then exec k pan sh else None
  | Spawn _ _ => None
  end.

(** A call of a function whose body and deferred calls are [p]: when the
    deferred calls have run and a panic is still in flight, the call panics
    in its caller; otherwise it returns. *)
Definition call {A : Type} (p : prog A) (sh : shared) : option (outcome A * shared) :=
  match exec p None sh with
  | Some (a, None, sh') => Some (Returned a, sh')
  | Some (_, Some r, sh') => Some (Panicked r, sh')
  | None => None
  end.

(** ** Interleaved execution *)

(** A running program: the goroutine that called into the package, the
    goroutines it has launched (code and panic in flight), the shared
    state. *)
Record cfg : Type := Cfg {
  main_code : prog error_var;
  main_pan : option any;
  pool : list (prog unit * option any);
  mem : shared
}.

Definition launch (new : list (prog unit)) : list (prog unit * option any) :=
  map (fun t => (t, None)) new.

(** The scheduler lets goroutine [t] take one step: [0] is the caller's
    goroutine, [S i] the [i]-th launched one. [None]: that goroutine cannot
    take a step. *)
Definition sched_step (t : nat) (c : cfg) : option cfg :=
  match t with
  | O =>
      match step1 (main_code c) (main_pan c) (mem c) with
      | Some (p, pan, sh, new) => Some (Cfg p pan (pool c ++ launch new) sh)
      | None => None
      end
  | S i =>
      match pool c !! i with
      | Some (code, gpan) =>
          match step1 code gpan (mem c) with
          | Some (p, pan, sh, new) =>
              Some (Cfg (main_code c) (main_pan c)
                        (<[i := (p, pan)]> (pool c) ++ launch new) sh)
          | None => None
          end
      | None => None
      end
  end.

(** A schedule is the sequence of goroutines that take the steps. *)
Fixpoint run (sched : list nat) (c : cfg) : option cfg :=
  match sched with
  | [] => Some c
  | t :: rest =>
      match sched_step t c with
      | Some c' => run rest c'
      | None => None
      end
  end.

(** The program [p] about to start in a state whose wait group is at its
    zero value. *)
Definition start (p : prog error_var) (h : loc -> error_var) (n : loc) : cfg :=
  Cfg p None [] (Shared h n 0).

(** The value the caller's goroutine has returned, once it has. *)
Definition returned (c : cfg) : option error_var :=
  match main_code c, main_pan c with
  | Ret v, None => Some v
  | _, _ => None
  end.

(** A launched goroutine has ended: no code is left. *)
Definition ended (g : prog unit * option any) : bool :=
  match fst g with
  | Ret _ => true
  | _ => false
  end.

(** The position [runtime.Caller] reports. *)
Record position : Type := Position { file : string; line : Z }.

Definition is_nil (v : any) : bool :=
  match v with
  | Nil => true
  | _ => false
  end.

Local Open Scope prog_scope.

(** ** src/xgo.go *)
Module Xgo.

(** [noErr(err)], called from [OK], [NoErr], [Val], ...; [caller] is
    what [runtime.Caller(2)] reports. *)
Definition noErr (err : error_var) (caller : position) : work :=
  match err with
  | Some e => Panicked (Err (Errorf_w_at (Err e) (file caller) (line caller)))
  | None => Returned tt
  end.

Definition OK (err : error_var) (caller : position) : work := noErr err caller.

Definition NoErr (err : error_var) (caller : position) : work := noErr err caller.

(** [Val(v, err)]; [caller] is what [runtime.Caller(2)] reports inside
    [noErr], the caller of [Val]. [Val2] and [Val3] differ from [Val] in the
    number of values only. *)
Definition Val {T : Type} (v : T) (err : error_var) (caller : position) : outcome T :=
  match noErr err caller with
  | Returned _ => Returned v
  | Panicked r => Panicked r
  end.

(** [Require(statement, err)]; [caller] is what [runtime.Caller(1)]
    reports. *)
Definition Require (statement : bool) (err : any) (caller : position) : work :=
  if negb statement
  then Panicked (Err (Errorf_w_at err (file caller) (line caller)))
  else Returned tt.

(** [Catch(err)] as a deferred call. *)
Definition Catch (err : ptr) : prog unit :=
  r <- recover ;;
  match err with
  | Some p =>
      if negb (is_nil r) then
        let e := match as_error r with
                 | Some e => e
                 | None => Errorf_v r
                 end in
        cur <- load p ;;
        e' <- match cur with
              | Some _ => (cur' <- load p ;; Ret (Join [cur'; Some e]))
              | None => Ret (Some e)
              end ;;
        store p e'
      else Ret tt
  | None => Ret tt
  end.

(** [Mute()] as a deferred call. *)
Definition Mute : prog unit := _ <- recover ;; Ret tt.

Definition Call (fn : work) : prog error_var :=
  err <- new_var ;;        (* the named result *)
  invoke fn ;;
  Catch (Some err) ;;      (* defer Catch(&err) *)
  load err.                (* return *)

Definition Go (fn : work) : prog unit :=
  go (_ <- Call fn ;; Ret tt).

Definition Async (fn : list work) : prog error_var :=
  err <- new_var ;;        (* the named result *)
  wg_Add (length fn) ;;
  range fn (fun f =>
    go (invoke f ;;
        Catch (Some err) ;;  (* defer Catch(&err) *)
        wg_Done)) ;;         (* defer wg.Done() *)
  wg_Wait ;;
  load err.                (* return *)

End Xgo.

(** ** src/unnamed/part_001 (and part_002) *)
Module Part001.

Definition OK (err : error_var) : work :=
  match err with
  | Some e => Panicked (Err e)
  | None => Returned tt
  end.

Definition NoErr (err : error_var) : work := OK err.

(** [Val(v, err)]; [Val2] and [Val3] differ in the number of values only. *)
Definition Val {T : Type} (v : T) (err : error_var) : outcome T :=
  match OK err with
  | Returned _ => Returned v
  | Panicked r => Panicked r
  end.

Definition Require (statement : bool) (err : any) : work :=
  if negb statement then
    match as_error err with
    | Some _ => Panicked err
    | None => Panicked (Err (Errorf_v err))
    end
  else Returned tt.

(** [Recover(err)] as a deferred call. *)
Definition Recover (err : ptr) : prog unit :=
  r <- recover ;;
  match err with
  | Some p =>
      if negb (is_nil r) then
        cur <- load p ;;
        match cur with
        | None =>
            match as_error r with
            | Some e => store p (Some e)
            | None => store p (Some (Errorf_v r))
            end
        | Some _ => Ret tt
        end
      else Ret tt
  | None => Ret tt
  end.

Definition Mute : prog unit := _ <- recover ;; Ret tt.

Definition Call (fn : work) : prog error_var :=
  err <- new_var ;;
  invoke fn ;;
  Recover (Some err) ;;
  load err.

Definition Go (fn : work) : prog unit :=
  go (_ <- Call fn ;; Ret tt).

Definition Async (fn : list work) : prog error_var :=
  err <- new_var ;;
  wg_Add (length fn) ;;
  range fn (fun f =>
    go (invoke f ;;
        Recover (Some err) ;;
        wg_Done)) ;;
  wg_Wait ;;
  load err.

End Part001.

(** The outcome of calling a function whose body and deferred calls are
    [p]. *)
Definition outcome_of {A : Type} (p : prog A) (sh : shared) : option (outcome A) :=
  fst <$> call p sh.

(** * Properties *)

(** ** Error values *)

Section error_induction.
Variable P : error -> Prop.
Hypothesis Hstr : forall s, P (errorString s).
Hypothesis Hwrap0 : forall m, P (wrapError m None).
Hypothesis Hwrap : forall m e, P e -> P (wrapError m (Some e)).
Hypothesis Hjoin : forall es, Forall P es -> P (joinError es).
Hypothesis Hnil : P PanicNilError.

Fixpoint error_ind' (e : error) : P e :=
  match e with
  | errorString s => Hstr s
  | wrapError m None => Hwrap0 m
  | wrapError m (Some e') => Hwrap m e' (error_ind' e')
  | joinError es =>
      Hjoin es
        ((fix all (l : list error) : Forall P l :=
            match l with
            | [] => @List.Forall_nil _ P
            | x :: l' => @List.Forall_cons _ P x _ (error_ind' x) (all l')
            end) es)
  | PanicNilError => Hnil
  end.
End error_induction.

Lemma error_eqb_eq (a b : error) : error_eqb a b = true <-> a = b.
Proof.
  revert b. induction a as [s|m|m e IH|es IH|] using error_ind'; intros b.
  - destruct b; simpl; try (split; [discriminate | intros [=]]).
    rewrite bool_decide_eq_true. split; [congruence | intros [=]; done].
  - destruct b as [|n [y|]| |]; simpl; try (split; [discriminate | intros [=]]).
    + rewrite andb_false_r. split; [discriminate | intros [=]].
    + rewrite andb_true_r, bool_decide_eq_true. split; [congruence | intros [=]; done].
  - destruct b as [|n [y|]| |]; simpl; try (split; [discriminate | intros [=]]).
    + rewrite andb_true_iff, bool_decide_eq_true, IH.
      split; [intros [-> ->]; done | intros [=]; done].
    + rewrite andb_false_r. split; [discriminate | intros [=]].
  - destruct b as [| |ys|]; simpl; try (split; [discriminate | intros [=]]).
    enough (forall ys,
      (fix all2 (l r : list error) {struct l} : bool :=
         match l, r with
         | [], [] => true
         | x :: l', y :: r' => error_eqb x y && all2 l' r'
         | _, _ => false
         end) es ys = true <-> es = ys) as H.
    { rewrite H. split; [congruence | intros [=]; done]. }
    clear ys. induction IH as [|x l Hx _ IHl]; intros [|y r];
      try (split; [discriminate | intros [=]]); [done|].
    rewrite andb_true_iff, Hx, IHl. split; [intros [-> ->]; done | intros [=]; done].
  - destruct b; simpl; try (split; [discriminate | intros [=]]). done.
Qed.

Lemma error_eqb_refl (e : error) : error_eqb e e = true.
Proof. by apply error_eqb_eq. Qed.

#[global] Instance error_eq_dec : EqDecision error.
Proof.
  intros a b. destruct (error_eqb a b) eqn:E.
  - left. by apply error_eqb_eq.
  - right. intros H. apply error_eqb_eq in H. congruence.
Defined.

(** [errors.Is(e, e)] holds. *)
Lemma Is_refl (e : error) : Is e e = true.
Proof. destruct e; cbn [Is]; by rewrite error_eqb_refl. Qed.

(** A wrapping error is about the error it wraps. *)
Lemma Is_wrap (m : string) (e : error) : Is (wrapError m (Some e)) e = true.
Proof. cbn [Is]. rewrite Is_refl. apply orb_true_r. Qed.

(** A joined error is about each of its members. *)
Lemma Is_join (es : list error) (e : error) : e ∈ es -> Is (joinError es) e = true.
Proof.
  intros H. cbn [Is]. apply orb_true_iff. right.
  apply existsb_exists. exists e. split; [by apply list_elem_of_In | apply Is_refl].
Qed.

(** ** One goroutine *)

(** [exec] takes the steps of [step1]. *)
Lemma exec_step1 {A : Type} (p p' : prog A) (pan pan' : option any) (sh sh' : shared) :
  step1 p pan sh = Some (p', pan', sh', []) ->
  exec p pan sh = exec p' pan' sh'.
Proof.
  destruct p; simpl; intros H; try case_bool_decide; by simplify_eq.
Qed.

(** Simplification of a sequential run: unfold the interpreter and read
    back the variable that was just written. *)
Ltac run_seq :=
  unfold outcome_of, call; cbn;
  repeat (rewrite ?fn_lookup_insert; cbn).

(** A panic that nothing recovers leaves the function that raised it: the
    barrier of [Call] is what stops it. *)
Lemma uncaught_panic_escapes (r : any) (sh : shared) :
  outcome_of (invoke (Panicked r)) sh = Some (Panicked r).
Proof. reflexivity. Qed.

(** [Mute] stops any panic. *)
Lemma Mute_absorbs (fn : work) (sh : shared) :
  outcome_of (invoke fn ;; Xgo.Mute) sh = Some (Returned tt).
Proof. destruct fn as [[]|r]; reflexivity. Qed.

(** What [Call] returns, in both revisions, for every way the unit of work
    can end. *)
Lemma Xgo_Call_outcome (fn : work) (sh : shared) :
  outcome_of (Xgo.Call fn) sh =
  Some (Returned
          match fn with
          | Returned _ => None
          | Panicked Nil => None
          | Panicked (Err e) => Some e
          | Panicked r => Some (Errorf_v r)
          end).
Proof. destruct fn as [[]|[]]; run_seq; reflexivity. Qed.

Lemma Part001_Call_outcome (fn : work) (sh : shared) :
  outcome_of (Part001.Call fn) sh =
  Some (Returned
          match fn with
          | Returned _ => None
          | Panicked Nil => None
          | Panicked (Err e) => Some e
          | Panicked r => Some (Errorf_v r)
          end).
Proof. destruct fn as [[]|[]]; run_seq; reflexivity. Qed.

(** C1. For every unit of work, [Call] completes and returns one error
    value, possibly nil: whatever panic the unit of work raised has been
    stopped at [Call] and does not reach the caller. Holds for [Call] of
    src/xgo.go and of part_001. *)
Theorem Call_always_returns (fn : work) (sh : shared) :
  (exists err : error_var, outcome_of (Xgo.Call fn) sh = Some (Returned err)) /\
  (exists err : error_var, outcome_of (Part001.Call fn) sh = Some (Returned err)).
Proof.
  rewrite Xgo_Call_outcome, Part001_Call_outcome. split; eexists; reflexivity.
Qed.

(** C2. When the unit of work returns normally, [Call] returns nil. *)
Theorem Call_returns_nil_on_success (sh : shared) :
  outcome_of (Xgo.Call (Returned tt)) sh = Some (Returned None) /\
  outcome_of (Part001.Call (Returned tt)) sh = Some (Returned None).
Proof. by rewrite Xgo_Call_outcome, Part001_Call_outcome. Qed.

(** C3. When the unit of work panics with an error value [e], [Call]
    returns a non-nil error that is [e] itself, so that [errors.Is] finds
    [e] in it. *)
Theorem Call_returns_error_payload (e : error) (sh : shared) :
  (exists res : error,
      outcome_of (Xgo.Call (Panicked (Err e))) sh = Some (Returned (Some res)) /\
      res = e /\ Is res e = true) /\
  (exists res : error,
      outcome_of (Part001.Call (Panicked (Err e))) sh = Some (Returned (Some res)) /\
      res = e /\ Is res e = true).
Proof.
  rewrite Xgo_Call_outcome, Part001_Call_outcome.
  split; exists e; auto using Is_refl.
Qed.

(** C4, as amended. When the unit of work panics with a payload [p] that is
    not nil and not an error value, [Call] returns a non-nil error whose
    message is the "%v" rendering of [p]. *)
Theorem Call_formats_other_payload (p : any) (sh : shared) :
  as_error p = None ->
  p <> Nil ->
  (exists res : error,
      outcome_of (Xgo.Call (Panicked p)) sh = Some (Returned (Some res)) /\
      Error res = fmt_v p) /\
  (exists res : error,
      outcome_of (Part001.Call (Panicked p)) sh = Some (Returned (Some res)) /\
      Error res = fmt_v p).
Proof.
  intros Hne Hnil. rewrite Xgo_Call_outcome, Part001_Call_outcome.
  destruct p; try done; split; eexists; split; reflexivity.
Qed.

Lemma Call_formats_other_payload_witness :
  (exists res : error,
      outcome_of (Xgo.Call (Panicked (Str "boom"))) (Shared (fun _ => None) 0 0)
        = Some (Returned (Some res)) /\
      Error res = "boom") /\
  (exists res : error,
      outcome_of (Part001.Call (Panicked (Str "boom"))) (Shared (fun _ => None) 0 0)
        = Some (Returned (Some res)) /\
      Error res = "boom").
Proof.
  apply (Call_formats_other_payload (Str "boom") (Shared (fun _ => None) 0 0));
    [reflexivity | discriminate].
Defined.

(** C4 as stated fails at the nil payload, which is not an error value:
    where [recover()] yields nil, [Call] returns nil; where the runtime
    replaces the nil payload, [Call] returns the runtime's error, whose
    message is not "<nil>", the rendering of the payload. *)
Lemma Call_nil_payload_not_formatted :
  as_error Nil = None /\
  outcome_of (Xgo.Call (gopanic true Nil)) (Shared (fun _ => None) 0 0)
    = Some (Returned None) /\
  outcome_of (Part001.Call (gopanic true Nil)) (Shared (fun _ => None) 0 0)
    = Some (Returned None) /\
  ~ (exists res : error,
       outcome_of (Xgo.Call (gopanic false Nil)) (Shared (fun _ => None) 0 0)
         = Some (Returned (Some res)) /\
       Error res = fmt_v Nil) /\
  ~ (exists res : error,
       outcome_of (Part001.Call (gopanic false Nil)) (Shared (fun _ => None) 0 0)
         = Some (Returned (Some res)) /\
       Error res = fmt_v Nil).
Proof.
  repeat split; try reflexivity.
  - intros (res & [= <-] & H). discriminate H.
  - intros (res & [= <-] & H). discriminate H.
Qed.

(** With a variable to write to, the deferred handler stores the fault it
    recovered. *)
Lemma Catch_stores (l : loc) (e : error) (sh : shared) :
  heap sh l = None ->
  exec (Xgo.Catch (Some l)) (Some (Err e)) sh
    = Some (tt, None, Shared (<[l := Some e]> (heap sh)) (next sh) (wg sh)) /\
  exec (Part001.Recover (Some l)) (Some (Err e)) sh
    = Some (tt, None, Shared (<[l := Some e]> (heap sh)) (next sh) (wg sh)).
Proof. intros H. cbn. rewrite H. done. Qed.

(** C5, as amended. [Require] with a true condition does not panic,
    whatever the payload; with a false condition it panics. Under [Call],
    part_001 returns an error payload itself and, for any other payload, an
    error whose message is the payload's "%v" rendering; src/xgo.go returns,
    for an error payload [e], an error that wraps [e] ([errors.Unwrap]
    yields [e]) and whose message is [e]'s message followed by the caller's
    position. *)
Theorem Require_under_Call (p : any) (caller : position) (sh : shared) :
  Xgo.Require true p caller = Returned tt /\
  Part001.Require true p = Returned tt /\
  (exists r : any, Xgo.Require false p caller = Panicked r) /\
  (exists r : any, Part001.Require false p = Panicked r) /\
  match as_error p with
  | Some e =>
      outcome_of (Part001.Call (Part001.Require false p)) sh
        = Some (Returned (Some e)) /\
      exists res : error,
        outcome_of (Xgo.Call (Xgo.Require false p caller)) sh
          = Some (Returned (Some res)) /\
        Unwrap res = Some e /\
        Is res e = true /\
        Error res = Error e +:+ LF +:+ TAB +:+ file caller +:+ ":" +:+ fmt_d (line caller)
  | None =>
      exists res : error,
        outcome_of (Part001.Call (Part001.Require false p)) sh
          = Some (Returned (Some res)) /\
        Error res = fmt_v p
  end.
Proof.
  repeat split; eauto.
  - unfold Part001.Require. destruct (as_error p); simpl; eauto.
  - rewrite Part001_Call_outcome.
    destruct p as [| | | |e]; simpl; eauto.
    split; [done|]. rewrite Xgo_Call_outcome. simpl.
    eexists. split; [done|]. split; [done|]. split; [apply Is_wrap | done].
Qed.

(** C5 as stated fails on src/xgo.go: for an error payload, [Call] does not
    return the payload but a new error around it; for a payload that is not
    an error, the message of the returned error is not the payload's "%v"
    rendering. *)
Lemma Xgo_Require_not_as_stated :
  outcome_of (Xgo.Call (Xgo.Require false (Err (errorString "boom")) (Position "main.go" 10)))
             (Shared (fun _ => None) 0 0)
    = Some (Returned (Some (wrapError ("boom" +:+ LF +:+ TAB +:+ "main.go:10")
                                      (Some (errorString "boom"))))) /\
  outcome_of (Xgo.Call (Xgo.Require false (Err (errorString "boom")) (Position "main.go" 10)))
             (Shared (fun _ => None) 0 0)
    <> Some (Returned (Some (errorString "boom"))) /\
  ~ (exists res : error,
       outcome_of (Xgo.Call (Xgo.Require false (Str "boom") (Position "main.go" 10)))
                  (Shared (fun _ => None) 0 0)
         = Some (Returned (Some res)) /\
       Error res = fmt_v (Str "boom")).
Proof.
  split; [reflexivity|]. split; [discriminate|].
  intros (res & [= <-] & H). discriminate H.
Qed.

(** When the unit of work panics and [recover()] yields nil, [Call]
    returns nil, and ends in the very state in which it ends when the unit
    of work returns normally. *)
Lemma Call_nil_payload (sh : shared) :
  outcome_of (Xgo.Call (Panicked Nil)) sh = Some (Returned None) /\
  call (Xgo.Call (Panicked Nil)) sh = call (Xgo.Call (Returned tt)) sh /\
  outcome_of (Part001.Call (Panicked Nil)) sh = Some (Returned None) /\
  call (Part001.Call (Panicked Nil)) sh = call (Part001.Call (Returned tt)) sh.
Proof. rewrite Xgo_Call_outcome, Part001_Call_outcome. done. Qed.

(** Where the runtime hands [panic(nil)] to [recover()] as a
    [*runtime.PanicNilError] (Go 1.21 and later, unless GODEBUG has
    panicnil=1), the handlers see an error value and [Call] returns it. *)
Lemma Call_panic_nil_replaced (sh : shared) :
  outcome_of (Xgo.Call (gopanic false Nil)) sh = Some (Returned (Some PanicNilError)) /\
  outcome_of (Part001.Call (gopanic false Nil)) sh = Some (Returned (Some PanicNilError)).
Proof. simpl. by rewrite Xgo_Call_outcome, Part001_Call_outcome. Qed.

(** C9, as amended. Where the runtime hands the value of [panic(nil)] to
    [recover()] unchanged (GODEBUG panicnil=1, or a language version before
    Go 1.21), a unit of work that calls [panic(nil)] makes [Call] return
    nil: the test [r != nil] fails, the panic is stopped, and [Call] ends in
    the very state in which it ends when the unit of work returns
    normally. *)
Theorem Call_nil_recovered (panicnil : bool) (sh : shared) :
  panicnil = true ->
  outcome_of (Xgo.Call (gopanic panicnil Nil)) sh = Some (Returned None) /\
  call (Xgo.Call (gopanic panicnil Nil)) sh = call (Xgo.Call (Returned tt)) sh /\
  outcome_of (Part001.Call (gopanic panicnil Nil)) sh = Some (Returned None) /\
  call (Part001.Call (gopanic panicnil Nil)) sh = call (Part001.Call (Returned tt)) sh.
Proof. intros ->. simpl. apply Call_nil_payload. Qed.

Lemma Call_nil_recovered_witness :
  outcome_of (Xgo.Call (gopanic true Nil)) (Shared (fun _ => None) 0 0)
    = Some (Returned None) /\
  call (Xgo.Call (gopanic true Nil)) (Shared (fun _ => None) 0 0)
    = call (Xgo.Call (Returned tt)) (Shared (fun _ => None) 0 0) /\
  outcome_of (Part001.Call (gopanic true Nil)) (Shared (fun _ => None) 0 0)
    = Some (Returned None) /\
  call (Part001.Call (gopanic true Nil)) (Shared (fun _ => None) 0 0)
    = call (Part001.Call (Returned tt)) (Shared (fun _ => None) 0 0).
Proof.
  apply (Call_nil_recovered true (Shared (fun _ => None) 0 0)). reflexivity.
Defined.

(** C9 as stated fails under the runtime's default from Go 1.21 on: a unit
    of work that calls [panic(nil)] makes [Call] return a
    [*runtime.PanicNilError], not nil, and the outcome differs from that of
    a unit of work that returns normally. *)
Lemma Call_panic_nil_not_nil :
  outcome_of (Xgo.Call (gopanic false Nil)) (Shared (fun _ => None) 0 0)
    = Some (Returned (Some PanicNilError)) /\
  outcome_of (Xgo.Call (gopanic false Nil)) (Shared (fun _ => None) 0 0)
    <> outcome_of (Xgo.Call (Returned tt)) (Shared (fun _ => None) 0 0) /\
  outcome_of (Part001.Call (gopanic false Nil)) (Shared (fun _ => None) 0 0)
    = Some (Returned (Some PanicNilError)) /\
  outcome_of (Part001.Call (gopanic false Nil)) (Shared (fun _ => None) 0 0)
    <> outcome_of (Part001.Call (Returned tt)) (Shared (fun _ => None) 0 0).
Proof. split_and!; try reflexivity; discriminate. Qed.

(** C10. [Catch] and [Recover], run as deferred calls with a nil pointer
    while a panic is in flight, stop the panic and return, and leave the
    shared state as it was: the fault is written nowhere. A function that
    defers them so returns normally, whatever its body panicked with. *)
Theorem Catch_nil_pointer (r : any) (sh : shared) :
  exec (Xgo.Catch None) (Some r) sh = Some (tt, None, sh) /\
  exec (Part001.Recover None) (Some r) sh = Some (tt, None, sh) /\
  call (invoke (Panicked r) ;; Xgo.Catch None) sh = Some (Returned tt, sh) /\
  call (invoke (Panicked r) ;; Part001.Recover None) sh = Some (Returned tt, sh).
Proof. split_and!; reflexivity. Qed.

(** ** Fan-out: the shape of [Async] *)

(** The code of one launched goroutine: the unit of work, then the deferred
    handler, then the deferred [wg.Done()]. *)
Definition goroutine (handler : prog unit) (f : work) : prog unit :=
  invoke f ;; handler ;; wg_Done.

(** [Async] once its variable [err] exists and [rest] is still to be
    launched. *)
Definition after_spawn (handler : ptr -> prog unit) (err : loc) (rest : list work)
  : prog error_var :=
  range rest (fun f => go (goroutine (handler (Some err)) f)) ;;
  wg_Wait ;;
  load err.

(** [Async] with the deferred handler left open. *)
Definition async (handler : ptr -> prog unit) (fn : list work) : prog error_var :=
  err <- new_var ;;
  wg_Add (length fn) ;;
  after_spawn handler err fn.

Lemma Xgo_Async_shape (fn : list work) : Xgo.Async fn = async Xgo.Catch fn.
Proof. reflexivity. Qed.

Lemma Part001_Async_shape (fn : list work) : Part001.Async fn = async Part001.Recover fn.
Proof. reflexivity. Qed.

Lemma after_spawn_cons (handler : ptr -> prog unit) (err : loc) (f : work) (rest : list work) :
  after_spawn handler err (f :: rest)
  = Spawn (Run f (handler (Some err) ;; wg_Done)) (after_spawn handler err rest).
Proof. reflexivity. Qed.

Lemma after_spawn_nil (handler : ptr -> prog unit) (err : loc) :
  after_spawn handler err [] = Wait (Load err Ret).
Proof. reflexivity. Qed.

(** Code that touches nothing but the panic in flight and the shared
    variables, and whose last step is [wg.Done()]. The index says whether
    the code may be entered with a panic in flight: if so, it calls
    [recover()] before it ends. *)
Inductive gcode : bool -> prog unit -> Prop :=
| gcode_done : gcode false (Done (Ret tt))
| gcode_run b fn k : gcode true k -> gcode b (Run fn k)
| gcode_rec b k : (forall r, gcode false (k r)) -> gcode b (Rec k)
| gcode_load b p k : (forall v, gcode b (k v)) -> gcode b (Load p k)
| gcode_store b p v k : gcode b k -> gcode b (Store p v k).

Lemma Catch_gcode (l : loc) : gcode true (Xgo.Catch (Some l) ;; wg_Done).
Proof.
  apply gcode_rec. intros r. cbn.
  destruct (is_nil r); cbn; [constructor|].
  apply gcode_load. intros [cur|]; cbn.
  - apply gcode_load. intros cur'. cbn. repeat constructor.
  - repeat constructor.
Qed.

Lemma Recover_gcode (l : loc) : gcode true (Part001.Recover (Some l) ;; wg_Done).
Proof.
  apply gcode_rec. intros r. cbn.
  destruct (is_nil r); cbn; [constructor|].
  apply gcode_load. intros [cur|]; cbn; [constructor|].
  destruct (as_error r); cbn; repeat constructor.
Qed.

(** A launched goroutine is done, or still has its [wg.Done()] ahead. *)
Definition finished (g : prog unit * option any) : Prop := g = (Ret tt, None).

Definition thread_ok (g : prog unit * option any) : Prop :=
  finished g \/ exists b, gcode b (fst g) /\ (is_Some (snd g) -> b = true).

(** The number of launched goroutines that have not ended. *)
Fixpoint pending (pool : list (prog unit * option any)) : nat :=
  match pool with
  | [] => 0
  | g :: rest => (if ended g then 0 else 1) + pending rest
  end.

Lemma gcode_not_ended (b : bool) (code : prog unit) (pan : option any) :
  gcode b code -> ended (code, pan) = false.
Proof. by destruct 1. Qed.

Lemma pending_app (p q : list (prog unit * option any)) :
  pending (p ++ q) = pending p + pending q.
Proof. induction p as [|g p IH]; simpl; [done|]. rewrite IH. lia. Qed.

Lemma pending_insert (pool : list (prog unit * option any)) (i : nat)
      (g g' : prog unit * option any) :
  pool !! i = Some g ->
  pending (<[i := g']> pool) + (if ended g then 0 else 1)
  = pending pool + (if ended g' then 0 else 1).
Proof.
  revert i. induction pool as [|x pool IH]; intros [|i] H; simplify_eq/=.
  - lia.
  - specialize (IH _ H). lia.
Qed.

Lemma pending_zero (pool : list (prog unit * option any)) :
  Forall thread_ok pool -> pending pool = 0 -> Forall finished pool.
Proof.
  induction 1 as [|g pool Hg _ IH]; simpl; [constructor|].
  intros H0. destruct Hg as [Hg|(b & Hg & _)].
  - constructor; [done|]. apply IH. rewrite Hg in H0. simpl in H0. done.
  - destruct g as [code pan]. rewrite (gcode_not_ended _ _ _ Hg) in H0. lia.
Qed.

(** One step of a goroutine that has its [wg.Done()] ahead: it can take
    it, launches nothing, allocates nothing, and either was at its last
    step, which lowers the counter, or is still such a goroutine. *)
Lemma gcode_step (b : bool) (code : prog unit) (pan : option any) (sh : shared) :
  gcode b code ->
  (is_Some pan -> b = true) ->
  exists code' pan' sh',
    step1 code pan sh = Some (code', pan', sh', []) /\
    next sh' = next sh /\
    ((finished (code', pan') /\ wg sh' = (wg sh - 1)%Z /\ heap sh' = heap sh) \/
     (exists b', gcode b' code' /\ (is_Some pan' -> b' = true) /\ wg sh' = wg sh)).
Proof.
  intros Hg Hb. destruct Hg as [|b fn k Hk|b k Hk|b p k Hk|b p v k Hk]; simpl.
  - destruct pan as [r|]; [by discriminate Hb|].
    eexists _, _, _. split; [done|]. split; [done|]. left. done.
  - eexists _, _, _. split; [done|]. split; [done|]. right. exists true. done.
  - eexists _, _, _. split; [done|]. split; [done|]. right. exists false.
    split; [done|]. split; [|done]. by intros [? [=]].
  - eexists _, _, _. split; [done|]. split; [done|]. right. exists b. done.
  - eexists _, _, _. split; [done|]. split; [done|]. right. exists b. done.
Qed.

(** ** Fan-out: the join *)

Section strict_join.
Variable handler : ptr -> prog unit.
Variable fn : list work.
Variable n : loc.
Hypothesis handler_gcode : gcode true (handler (Some n) ;; wg_Done).

(** The states [async handler fn] runs through when it starts with [n]
    as the next free address: before and after the variable [err] is
    made, while goroutines are launched and awaited, and when [err] is
    read and returned. The counter of the wait group is the number of
    goroutines that are still to be launched or have not ended. *)
Inductive phase : cfg -> Prop :=
| phase_new h :
    phase (Cfg (async handler fn) None [] (Shared h n 0))
| phase_add h :
    h n = None ->
    phase (Cfg (Add (length fn) (after_spawn handler n fn)) None []
               (Shared h (S n) 0))
| phase_spawn launched rest pool h w :
    fn = launched ++ rest ->
    length pool = length launched ->
    Forall thread_ok pool ->
    w = Z.of_nat (length rest + pending pool) ->
    phase (Cfg (after_spawn handler n rest) None pool (Shared h (S n) w))
| phase_load pool h :
    length pool = length fn ->
    Forall finished pool ->
    phase (Cfg (Load n Ret) None pool (Shared h (S n) 0))
| phase_ret pool h :
    length pool = length fn ->
    Forall finished pool ->
    phase (Cfg (Ret (h n)) None pool (Shared h (S n) 0)).

Lemma phase_start h : phase (start (async handler fn) h n).
Proof. apply phase_new. Qed.

Lemma finished_no_step (pool : list (prog unit * option any)) (i : nat)
      (m : prog error_var) (mp : option any) (sh : shared) :
  Forall finished pool -> sched_step (S i) (Cfg m mp pool sh) = None.
Proof.
  intros Hf. simpl. destruct (pool !! i) as [[code pan]|] eqn:Hi; [|done].
  eapply Forall_lookup_1 in Hf; [|done]. by injection Hf as -> ->.
Qed.

Lemma phase_step (t : nat) (c c' : cfg) :
  phase c -> sched_step t c = Some c' -> phase c'.
Proof.
  intros Hc Hs.
  destruct Hc as [h|h Hn|launched rest pool h w Hfn Hlen Hok Hw|pool h Hlen Hf|pool h Hlen Hf].
  - destruct t as [|i]; simplify_eq/=.
    apply phase_add. apply fn_lookup_insert.
  - destruct t as [|i]; simplify_eq/=.
    eapply (phase_spawn [] fn); simpl; eauto. lia.
  - destruct t as [|i].
    + destruct rest as [|f rest]; simpl in Hs.
      * case_bool_decide; simplify_eq/=. rewrite app_nil_r in *.
        rewrite H. apply phase_load; [congruence|].
        apply pending_zero; [done|lia].
      * simplify_eq/=.
        eapply (phase_spawn (launched ++ [f]) rest).
        -- by rewrite <- app_assoc.
        -- rewrite !length_app. simpl. lia.
        -- apply Forall_app. split; [done|]. constructor; [|constructor].
           right. exists false. split; [|by intros [? [=]]].
           apply gcode_run. apply handler_gcode.
        -- rewrite pending_app. simpl. lia.
    + simpl in Hs. destruct (pool !! i) as [[code pan]|] eqn:Hi; [|done].
      pose proof (Forall_lookup_1 _ _ _ _ Hok Hi) as [Hfin|(b & Hg & Hb)].
      { injection Hfin as -> ->. done. }
      simpl in Hg, Hb.
      destruct (gcode_step b code pan (Shared h (S n) w) Hg Hb)
        as (code' & pan' & [h' n' w'] & Hstep & Hnext & Hcase).
      rewrite Hstep in Hs. simplify_eq/=. rewrite app_nil_r.
      pose proof (pending_insert pool i (code, pan) (code', pan') Hi) as Hp.
      rewrite (gcode_not_ended _ _ _ Hg) in Hp.
      eapply (phase_spawn launched rest); eauto.
      * by rewrite length_insert.
      * apply Forall_insert; [done|].
        destruct Hcase as [(Hfin & _)|(b' & Hg' & Hb' & _)]; [by left|].
        right. by exists b'.
      * destruct Hcase as [(Hfin & Hw' & _)|(b' & Hg' & Hb' & Hw')]; simpl in *.
        -- injection Hfin as -> ->. simpl in Hp. lia.
        -- rewrite (gcode_not_ended _ _ _ Hg') in Hp. lia.
  - destruct t as [|i]; [|by rewrite finished_no_step in Hs].
    simplify_eq/=. rewrite app_nil_r. by apply phase_ret.
  - destruct t as [|i]; [done|by rewrite finished_no_step in Hs].
Qed.

Lemma phase_run (sched : list nat) (c c' : cfg) :
  phase c -> run sched c = Some c' -> phase c'.
Proof.
  revert c. induction sched as [|t sched IH]; intros c Hc Hr; simplify_eq/=; [done|].
  destruct (sched_step t c) as [c1|] eqn:Hs; [|done].
  eauto using phase_step.
Qed.

(** When the caller's goroutine has returned, every unit of work has
    been launched and every launched goroutine has ended with no panic
    in flight; the value returned is what [err] holds; no goroutine can
    take a step any more. *)
Lemma phase_returned (c : cfg) (v : error_var) :
  phase c ->
  returned c = Some v ->
  length (pool c) = length fn /\
  Forall finished (pool c) /\
  v = heap (mem c) n /\
  forall t, sched_step t c = None.
Proof.
  intros Hc Hv.
  destruct Hc as [h|h Hn|launched rest pool h w Hfn Hlen Hok Hw|pool h Hlen Hf|pool h Hlen Hf];
    unfold returned in Hv; try destruct rest; simplify_eq/=.
  split_and!; try done.
  intros [|i]; [done|by apply finished_no_step].
Qed.
End strict_join.

(** ** Fan-out: the call can always return *)

Lemma run_app (s1 s2 : list nat) (c : cfg) :
  run (s1 ++ s2) c = match run s1 c with Some c' => run s2 c' | None => None end.
Proof.
  revert c. induction s1 as [|t s1 IH]; intros c; simpl; [done|].
  destruct (sched_step t c); [apply IH|done].
Qed.

(** A goroutine that has its [wg.Done()] ahead can be run to its end,
    whatever the state of the others; all it leaves behind in the wait
    group is one count less. *)
Lemma thread_finish (b : bool) (code : prog unit) :
  gcode b code ->
  forall (pan : option any) (m : prog error_var) (mp : option any)
         (pool : list (prog unit * option any)) (sh : shared) (i : nat),
    (is_Some pan -> b = true) ->
    pool !! i = Some (code, pan) ->
    exists sched sh',
      run sched (Cfg m mp pool sh)
        = Some (Cfg m mp (<[i := (Ret tt, None)]> pool) sh') /\
      next sh' = next sh /\ wg sh' = (wg sh - 1)%Z.
Proof.
  induction 1 as [|b fn k Hk IH|b k Hk IH|b p k Hk IH|b p v k Hk IH];
    intros pan m mp pool sh i Hb Hi;
    pose proof (lookup_lt_Some _ _ _ Hi) as Hlt.
  - destruct pan as [r|]; [by discriminate Hb|].
    exists [S i], (Shared (heap sh) (next sh) (wg sh - 1)).
    simpl. rewrite Hi. simpl. by rewrite app_nil_r.
  - set (pan' := match fn with Returned _ => pan | Panicked r => Some r end).
    destruct (IH pan' m mp (<[i := (k, pan')]> pool) sh i) as (sched & sh' & Hr & Hn & Hw).
    { done. } { by apply list_lookup_insert_eq. }
    exists (S i :: sched), sh'. simpl. rewrite Hi. simpl. rewrite app_nil_r.
    fold pan'. rewrite Hr, list_insert_insert_eq. done.
  - destruct (IH (default Nil pan) None m mp
                 (<[i := (k (default Nil pan), None)]> pool) sh i)
      as (sched & sh' & Hr & Hn & Hw).
    { by intros [? [=]]. } { by apply list_lookup_insert_eq. }
    exists (S i :: sched), sh'. simpl. rewrite Hi. simpl. rewrite app_nil_r.
    rewrite Hr, list_insert_insert_eq. done.
  - destruct (IH (heap sh p) pan m mp (<[i := (k (heap sh p), pan)]> pool) sh i)
      as (sched & sh' & Hr & Hn & Hw).
    { done. } { by apply list_lookup_insert_eq. }
    exists (S i :: sched), sh'. simpl. rewrite Hi. simpl. rewrite app_nil_r.
    rewrite Hr, list_insert_insert_eq. done.
  - destruct (IH pan m mp (<[i := (k, pan)]> pool)
                 (Shared (<[p := v]> (heap sh)) (next sh) (wg sh)) i)
      as (sched & sh' & Hr & Hn & Hw).
    { done. } { by apply list_lookup_insert_eq. }
    exists (S i :: sched), sh'. simpl. rewrite Hi. simpl. rewrite app_nil_r.
    rewrite Hr, list_insert_insert_eq. done.
Qed.

Lemma pending_finished (pool : list (prog unit * option any)) :
  Forall finished pool -> pending pool = 0.
Proof. induction 1 as [|g pool Hg _ IH]; simpl; [done|]. by rewrite Hg. Qed.

(** All launched goroutines can be run to their ends, one after the
    other. *)
Lemma drain (m : prog error_var) (mp : option any) (post : list (prog unit * option any)) :
  forall (pre : list (prog unit * option any)) (sh : shared),
    Forall finished pre ->
    Forall thread_ok post ->
    exists sched pool' sh',
      run sched (Cfg m mp (pre ++ post) sh) = Some (Cfg m mp pool' sh') /\
      Forall finished pool' /\
      length pool' = length (pre ++ post) /\
      next sh' = next sh /\
      wg sh' = (wg sh - Z.of_nat (pending post))%Z.
Proof.
  induction post as [|g post IH]; intros pre sh Hpre Hpost.
  - exists [], (pre ++ []), sh. simpl. rewrite app_nil_r. split_and!; try done. lia.
  - apply Forall_cons in Hpost as [Hg Hpost].
    destruct Hg as [Hg|(b & Hg & Hb)].
    + destruct (IH (pre ++ [g]) sh) as (sched & pool' & sh' & Hr & Hf & Hl & Hn & Hw).
      { apply Forall_app. split; [done|]. by constructor. } { done. }
      rewrite <- app_assoc in Hr, Hl. simpl in Hr, Hl.
      exists sched, pool', sh'. split_and!; try done.
      rewrite Hw. simpl. rewrite Hg. simpl. lia.
    + destruct g as [code pan]. simpl in Hg, Hb.
      destruct (thread_finish b code Hg pan m mp (pre ++ (code, pan) :: post) sh (length pre))
        as (s1 & sh1 & Hr1 & Hn1 & Hw1).
      { done. } { by rewrite list_lookup_middle. }
      rewrite insert_app_r_alt, Nat.sub_diag in Hr1 by lia. simpl in Hr1.
      destruct (IH (pre ++ [(Ret tt, None)]) sh1) as (s2 & pool' & sh' & Hr & Hf & Hl & Hn & Hw).
      { apply Forall_app. split; [done|]. by constructor. } { done. }
      rewrite <- app_assoc in Hr, Hl. simpl in Hr, Hl.
      exists (s1 ++ s2), pool', sh'. rewrite run_app, Hr1, Hr.
      split_and!; try done.
      * rewrite Hl. by rewrite !length_app.
      * congruence.
      * rewrite Hw, Hw1. simpl. rewrite (gcode_not_ended _ _ _ Hg). lia.
Qed.

(** A state from which the caller's goroutine can still get to return. *)
Definition can_return (c : cfg) : Prop :=
  exists sched c' v, run sched c = Some c' /\ returned c' = Some v.

Lemma can_return_step (t : nat) (c c' : cfg) :
  sched_step t c = Some c' -> can_return c' -> can_return c.
Proof.
  intros Hs (sched & c'' & v & Hr & Hv). exists (t :: sched), c'', v.
  simpl. by rewrite Hs.
Qed.

Lemma can_return_run (s : list nat) (c c' : cfg) :
  run s c = Some c' -> can_return c' -> can_return c.
Proof.
  intros Hs (sched & c'' & v & Hr & Hv). exists (s ++ sched), c'', v.
  by rewrite run_app, Hs.
Qed.

Section async_returns.
Variable handler : ptr -> prog unit.
Variable fn : list work.
Variable n : loc.
Hypothesis handler_gcode : gcode true (handler (Some n) ;; wg_Done).

Lemma spawn_can_return (rest : list work) :
  forall (launched : list work) (pool : list (prog unit * option any))
         (h : loc -> error_var) (w : Z),
    Forall thread_ok pool ->
    w = Z.of_nat (length rest + pending pool) ->
    can_return (Cfg (after_spawn handler n rest) None pool (Shared h (S n) w)).
Proof.
  induction rest as [|f rest IH]; intros launched pool h w Hok Hw.
  - destruct (drain (after_spawn handler n []) None pool [] (Shared h (S n) w))
      as (sched & pool' & [h' n' w'] & Hr & Hf & Hl & Hn & Hw'); [done..|].
    simpl in *. eapply can_return_run; [exact Hr|].
    assert (w' = 0%Z) as -> by lia.
    by exists [0; 0], (Cfg (Ret (h' n)) None ((pool' ++ []) ++ []) (Shared h' n' 0)), (h' n).
  - eapply (can_return_step 0); [reflexivity|].
    apply (IH (launched ++ [f])).
    + apply Forall_app. split; [done|]. constructor; [|constructor].
      right. exists false. split; [|by intros [? [=]]].
      apply gcode_run. apply handler_gcode.
    + rewrite pending_app. simpl in *. lia.
Qed.

(** From every state of the run, the caller's goroutine can get to
    return: no state is a dead end. *)
Lemma phase_can_return (c : cfg) : phase handler fn n c -> can_return c.
Proof.
  intros Hc.
  destruct Hc as [h|h Hn|launched rest pool h w Hfn Hlen Hok Hw|pool h Hlen Hf|pool h Hlen Hf].
  - eapply (can_return_step 0); [reflexivity|].
    eapply (can_return_step 0); [reflexivity|].
    apply (spawn_can_return fn []); simpl; [constructor|lia].
  - eapply (can_return_step 0); [reflexivity|].
    apply (spawn_can_return fn []); simpl; [constructor|lia].
  - by apply (spawn_can_return rest launched).
  - eapply (can_return_step 0); [reflexivity|].
    by eexists [], _, (h n).
  - by eexists [], _, (h n).
Qed.
End async_returns.

(** C8. [Async] joins strictly, in src/xgo.go and in part_001: in every
    interleaving, at the moment the caller's goroutine has returned, every
    unit of work has been launched and every launched goroutine has run to
    its end (unit of work, deferred handler, [wg.Done()]) with no panic
    left in flight; the value returned is what the variable [err] holds
    then, and no goroutine can take a further step, so that nothing is
    written after the return. *)
Theorem Async_strict_join (fn : list work) (h : loc -> error_var) (n : loc)
        (sched : list nat) (c : cfg) (v : error_var) :
  run sched (start (Xgo.Async fn) h n) = Some c \/
  run sched (start (Part001.Async fn) h n) = Some c ->
  returned c = Some v ->
  length (pool c) = length fn /\
  Forall finished (pool c) /\
  v = heap (mem c) n /\
  forall t, sched_step t c = None.
Proof.
  intros [Hr|Hr] Hv.
  - eapply (phase_returned Xgo.Catch); [|done].
    eapply phase_run; [apply Catch_gcode|apply phase_start|exact Hr].
  - eapply (phase_returned Part001.Recover); [|done].
    eapply phase_run; [apply Recover_gcode|apply phase_start|exact Hr].
Qed.

(** A run of [Async] on a unit of work that panics and one that returns:
    the caller's goroutine is still blocked in [wg.Wait()] after the second
    goroutine has ended, and returns once the first has ended too. *)
Lemma Async_strict_join_witness :
  length (pool (Cfg (Ret (Some (errorString "boom"))) None
                    [(Ret tt, None); (Ret tt, None)]
                    (Shared (<[0 := Some (errorString "boom")]> (<[0 := None]> (fun _ => None))) 1 0)))
    = length [Panicked (Str "boom"); Returned tt] /\
  Forall finished [(Ret tt, None); (Ret tt, None)] /\
  Some (errorString "boom")
    = heap (Shared (<[0 := Some (errorString "boom")]> (<[0 := None]> (fun _ => None))) 1 0) 0 /\
  forall t,
    sched_step t (Cfg (Ret (Some (errorString "boom"))) None
                      [(Ret tt, None); (Ret tt, None)]
                      (Shared (<[0 := Some (errorString "boom")]> (<[0 := None]> (fun _ => None))) 1 0))
    = None.
Proof.
  apply (Async_strict_join [Panicked (Str "boom"); Returned tt] (fun _ => None) 0
           [0; 0; 0; 0; 2; 2; 2; 1; 1; 1; 1; 1; 0; 0]).
  - left. reflexivity.
  - reflexivity.
Defined.

(** ** Fan-out: one unit of work panics *)

(** Units of work that leave no fault behind: they return, or they panic
    with a value that [recover()] yields as nil. *)
Definition quiet (f : work) : Prop :=
  match f with
  | Returned _ => True
  | Panicked Nil => True
  | Panicked _ => False
  end.

(** Goroutine code that, run with the panic in flight given by the index,
    neither reads nor writes a shared variable. *)
Inductive silent : option any -> prog unit -> Prop :=
| silent_ret : silent None (Ret tt)
| silent_done : silent None (Done (Ret tt))
| silent_run pan f k :
    quiet f ->
    silent (match f with Returned _ => pan | Panicked r => Some r end) k ->
    silent pan (Run f k)
| silent_rec pan k :
    silent None (k (default Nil pan)) -> silent pan (Rec k).

Lemma silent_step (pan pan' : option any) (code code' : prog unit)
      (sh sh' : shared) (new : list (prog unit)) :
  silent pan code ->
  step1 code pan sh = Some (code', pan', sh', new) ->
  silent pan' code' /\ heap sh' = heap sh.
Proof. destruct 1; intros Hs; simplify_eq/=; (split; [done || constructor | done]). Qed.

Lemma Catch_silent (l : loc) (pan : option any) :
  default Nil pan = Nil -> silent pan (Xgo.Catch (Some l) ;; wg_Done).
Proof. intros H. apply silent_rec. rewrite H. cbn. constructor. Qed.

Lemma Recover_silent (l : loc) (pan : option any) :
  default Nil pan = Nil -> silent pan (Part001.Recover (Some l) ;; wg_Done).
Proof. intros H. apply silent_rec. rewrite H. cbn. constructor. Qed.

(** The steps of such goroutine code do not look at the counter of the
    wait group. *)
Lemma gcode_step1_wg (b : bool) (code : prog unit) (pan : option any)
      (h : loc -> error_var) (nx : loc) (w w2 : Z) :
  gcode b code ->
  step1 code pan (Shared h nx w2)
  = match step1 code pan (Shared h nx w) with
    | Some (c', p', sh', new) =>
        Some (c', p', Shared (heap sh') (next sh') (wg sh' - w + w2), new)
    | None => None
    end.
Proof. destruct 1; simpl; repeat f_equal; lia. Qed.

(** What a goroutine would leave in the variable at [n] if it ran to its
    end from the heap [h], whatever the counter of the wait group: the
    error [e]. *)
Definition leaves (n : loc) (e : error) (h : loc -> error_var)
           (g : prog unit * option any) : Prop :=
  forall w, exists sh',
    exec (fst g) (snd g) (Shared h (S n) w) = Some (tt, None, sh') /\
    heap sh' n = Some e.

Lemma leaves_step (n : loc) (e : error) (b : bool) (code code' : prog unit)
      (pan pan' : option any) (h h' : loc -> error_var) (w w' : Z) (nx : loc) :
  gcode b code ->
  step1 code pan (Shared h (S n) w) = Some (code', pan', Shared h' nx w', []) ->
  leaves n e h (code, pan) ->
  leaves n e h' (code', pan').
Proof.
  intros Hg Hs Hl w2.
  destruct (Hl (w2 - (w' - w))%Z) as (sh' & He & Hh).
  exists sh'. split; [|done]. rewrite <- He. symmetry. simpl.
  apply exec_step1.
  rewrite (gcode_step1_wg b code pan h (S n) w _ Hg), Hs. simpl.
  assert (nx = S n) as ->.
  { destruct Hg; simplify_eq/=; done. }
  repeat f_equal. lia.
Qed.

Lemma after_spawn_not_async (handler : ptr -> prog unit) (n : loc) (rest fn : list work) :
  after_spawn handler n rest <> async handler fn.
Proof. by destruct rest. Qed.

Section one_fault.
Variable handler : ptr -> prog unit.
Variable fn : list work.
Variable n : loc.
Variable k : nat.
Variable r : any.
Variable e : error.
Hypothesis handler_gcode : gcode true (handler (Some n) ;; wg_Done).
Hypothesis handler_silent :
  forall pan, default Nil pan = Nil -> silent pan (handler (Some n) ;; wg_Done).
Hypothesis handler_fault :
  forall h, h n = None ->
            leaves n e h (Run (Panicked r) (handler (Some n) ;; wg_Done), None).
(** The [k]-th unit of work panics with [r]; the others are quiet. *)
Hypothesis fn_k : fn !! k = Some (Panicked r).
Hypothesis fn_quiet : forall i f, i <> k -> fn !! i = Some f -> quiet f.

(** Until the [k]-th goroutine is launched, [err] is nil; from then on
    that goroutine is bound to leave [e] in [err]; the other goroutines
    do not touch [err]. *)
Definition one_fault_inv (c : cfg) : Prop :=
  (length (pool c) <= k ->
   main_code c = async handler fn \/ heap (mem c) n = None) /\
  (forall i g, pool c !! i = Some g ->
               if decide (i = k) then leaves n e (heap (mem c)) g
               else silent (snd g) (fst g)).

Lemma one_fault_start h : one_fault_inv (start (async handler fn) h n).
Proof. split; [by left|]. intros i g [=]. Qed.

Lemma one_fault_step (t : nat) (c c' : cfg) :
  phase handler fn n c -> one_fault_inv c ->
  sched_step t c = Some c' -> one_fault_inv c'.
Proof.
  intros Hc [Hnil Hpool] Hs. unfold one_fault_inv.
  destruct Hc as [h|h Hn|launched rest pool h w Hfn Hlen Hok Hw|pool h Hlen Hf|pool h Hlen Hf].
  - destruct t as [|i]; simplify_eq/=.
    split; [intros _; right; apply fn_lookup_insert|].
    intros i g Hi. by destruct i.
  - destruct t as [|i]; simplify_eq/=.
    split; [by right|]. intros i g Hi. by destruct i.
  - simpl in Hnil, Hpool.
    assert (length pool <= k -> h n = None) as Hnil'.
    { intros Hk. destruct (Hnil Hk) as [H|H]; [|done].
      by apply after_spawn_not_async in H. }
    destruct t as [|i].
    + destruct rest as [|f rest]; simpl in Hs.
      { case_bool_decide; simplify_eq/=. rewrite app_nil_r. split; [by right; auto|done]. }
      simplify_eq/=. split.
      { intros Hk. right. apply Hnil'. rewrite length_app in Hk. lia. }
      intros i g Hi.
      apply lookup_app_Some in Hi as [Hi|[Hge Hi]]; [by apply Hpool|].
      apply list_lookup_singleton_Some in Hi as [Hi <-].
      assert (i = length launched) as -> by lia.
      assert ((launched ++ f :: rest) !! length launched = Some f) as Hf
          by apply list_lookup_middle, eq_refl.
      simpl. destruct (decide (length launched = k)) as [Hk|Hk].
      * rewrite Hk, fn_k in Hf. injection Hf as <-.
        apply handler_fault, Hnil'. lia.
      * pose proof (fn_quiet _ _ Hk Hf) as Hq.
        apply silent_run; [done|]. apply handler_silent.
        by destruct f as [[]|[]].
    + simpl in Hs. destruct (pool !! i) as [[code pan]|] eqn:Hi; [|done].
      pose proof (lookup_lt_Some _ _ _ Hi) as Hlt.
      pose proof (Forall_lookup_1 _ _ _ _ Hok Hi) as [Hfin|(b & Hg & Hb)].
      { injection Hfin as -> ->. done. }
      simpl in Hg, Hb.
      destruct (step1 code pan (Shared h (S n) w)) as [[[[code' pan'] [h' nx w']] new]|] eqn:Hstep;
        [|done].
      assert (new = []) as ->.
      { destruct (gcode_step b code pan (Shared h (S n) w) Hg Hb)
          as (? & ? & ? & Hstep' & _). congruence. }
      simplify_eq/=. rewrite app_nil_r.
      pose proof (Hpool i _ Hi) as Hgi. simpl in Hgi.
      destruct (decide (i = k)) as [->|Hik].
      * split; [rewrite length_insert; lia|].
        intros j g Hj. destruct (decide (j = k)) as [->|Hjk].
        -- rewrite list_lookup_insert_eq in Hj by done. injection Hj as <-.
           eapply leaves_step; eauto.
        -- rewrite list_lookup_insert_ne in Hj by done.
           specialize (Hpool j g Hj). by rewrite decide_False in Hpool.
      * destruct (silent_step _ _ _ _ _ _ _ Hgi Hstep) as [Hsil Hheap].
        simpl in Hheap. subst h'.
        split; [rewrite length_insert; auto|].
        intros j g Hj. destruct (decide (j = i)) as [->|Hji].
        -- rewrite list_lookup_insert_eq in Hj by done. injection Hj as <-.
           by rewrite decide_False.
        -- rewrite list_lookup_insert_ne in Hj by done. by apply Hpool.
  - destruct t as [|i]; [|by rewrite finished_no_step in Hs].
    simplify_eq/=. rewrite app_nil_r. split; [|done].
    intros Hk. apply lookup_lt_Some in fn_k. lia.
  - destruct t as [|i]; [done|by rewrite finished_no_step in Hs].
Qed.

Lemma one_fault_run (sched : list nat) (c c' : cfg) :
  phase handler fn n c -> one_fault_inv c ->
  run sched c = Some c' ->
  phase handler fn n c' /\ one_fault_inv c'.
Proof.
  revert c. induction sched as [|t sched IH]; intros c Hc Hi Hr; simplify_eq/=; [done|].
  destruct (sched_step t c) as [c1|] eqn:Hs; [|done].
  eapply IH; [eapply phase_step|eapply one_fault_step|]; eauto.
Qed.

(** Whenever the call returns, it returns [e]. *)
Lemma one_fault_returned (c : cfg) (v : error_var) :
  phase handler fn n c -> one_fault_inv c ->
  returned c = Some v -> v = Some e.
Proof.
  intros Hc [_ Hpool] Hv.
  destruct (phase_returned _ _ _ c v Hc Hv) as (Hlen & Hfin & -> & _).
  pose proof (lookup_lt_Some _ _ _ fn_k) as Hk.
  destruct (lookup_lt_is_Some_2 (pool c) k) as [g Hg]; [lia|].
  pose proof (Forall_lookup_1 _ _ _ _ Hfin Hg) as ->.
  specialize (Hpool k _ Hg). rewrite decide_True in Hpool by done.
  destruct (Hpool 0%Z) as (sh' & He & Hh). by simplify_eq/=.
Qed.

(** In every interleaving: if the call returns, it returns [e]; and it can
    always get to return. *)
Lemma one_fault_result (h : loc -> error_var) (sched : list nat) (c : cfg) :
  run sched (start (async handler fn) h n) = Some c ->
  (forall v, returned c = Some v -> v = Some e) /\
  (exists sched' c', run sched' c = Some c' /\ returned c' = Some (Some e)).
Proof.
  intros Hrun.
  destruct (one_fault_run sched _ c (phase_start _ _ _ h) (one_fault_start h) Hrun)
    as [Hph Hinv].
  split; [intros v; by apply one_fault_returned|].
  destruct (phase_can_return _ _ _ handler_gcode c Hph) as (s' & c' & v & Hr' & Hv).
  exists s', c'. split; [done|]. rewrite Hv. f_equal.
  destruct (one_fault_run s' c c' Hph Hinv Hr') as [Hph' Hinv'].
  by eapply one_fault_returned.
Qed.
End one_fault.

Lemma Catch_leaves (n : loc) (r : any) (h : loc -> error_var) :
  r <> Nil -> h n = None ->
  leaves n (match as_error r with Some e => e | None => Errorf_v r end) h
         (Run (Panicked r) (Xgo.Catch (Some n) ;; wg_Done), None).
Proof.
  intros Hr Hn w. destruct r; try done; cbn; rewrite Hn; cbn;
    (eexists; split; [reflexivity|apply fn_lookup_insert]).
Qed.

Lemma Recover_leaves (n : loc) (r : any) (h : loc -> error_var) :
  r <> Nil -> h n = None ->
  leaves n (match as_error r with Some e => e | None => Errorf_v r end) h
         (Run (Panicked r) (Part001.Recover (Some n) ;; wg_Done), None).
Proof.
  intros Hr Hn w. destruct r; try done; cbn; rewrite Hn; cbn;
    (eexists; split; [reflexivity|apply fn_lookup_insert]).
Qed.

Lemma first_of_two_quiet (r : any) (i : nat) (f : work) :
  i <> 0 -> [Panicked r; Returned tt] !! i = Some f -> quiet f.
Proof. destruct i as [|[|i]]; intros Hi Hf; simplify_eq/=; done. Qed.

(** C6, as amended. [Async] on two units of work, the first of which panics
    with a payload that [recover()] yields as non-nil and the second of
    which returns: in every interleaving, if the call returns, it returns
    the fault of the first unit alone (the payload itself if it is an error,
    otherwise an error whose message is the payload's "%v" rendering), and
    from every state of the run the call can get to return. Holds for
    src/xgo.go and for part_001. *)
Theorem Async_one_fault (r : any) (h : loc -> error_var) (n : loc) :
  r <> Nil ->
  exists e : error,
    match as_error r with
    | Some e' => e = e'
    | None => Error e = fmt_v r
    end /\
    forall sched c,
      run sched (start (Xgo.Async [Panicked r; Returned tt]) h n) = Some c \/
      run sched (start (Part001.Async [Panicked r; Returned tt]) h n) = Some c ->
      (forall v, returned c = Some v -> v = Some e) /\
      (exists sched' c', run sched' c = Some c' /\ returned c' = Some (Some e)).
Proof.
  intros Hr.
  exists (match as_error r with Some e => e | None => Errorf_v r end).
  split; [by destruct (as_error r)|].
  intros sched c [Hrun|Hrun].
  - eapply (one_fault_result Xgo.Catch _ n 0 r);
      eauto using Catch_gcode, Catch_silent, Catch_leaves, first_of_two_quiet; reflexivity.
  - eapply (one_fault_result Part001.Recover _ n 0 r);
      eauto using Recover_gcode, Recover_silent, Recover_leaves, first_of_two_quiet; reflexivity.
Qed.

Lemma Async_one_fault_witness :
  exists e : error,
    Error e = "boom" /\
    forall sched c,
      run sched (start (Xgo.Async [Panicked (Str "boom"); Returned tt]) (fun _ => None) 0)
        = Some c \/
      run sched (start (Part001.Async [Panicked (Str "boom"); Returned tt]) (fun _ => None) 0)
        = Some c ->
      (forall v, returned c = Some v -> v = Some e) /\
      (exists sched' c', run sched' c = Some c' /\ returned c' = Some (Some e)).
Proof.
  apply (Async_one_fault (Str "boom") (fun _ => None) 0). discriminate.
Defined.

(** C6 as stated fails when the first unit of work panics and [recover()]
    yields nil: the call returns nil. *)
Lemma Async_nil_fault_returns_nil :
  returned <$> run [0; 0; 0; 0; 1; 1; 1; 2; 2; 2; 0; 0]
                   (start (Xgo.Async [Panicked Nil; Returned tt]) (fun _ => None) 0)
    = Some (Some None) /\
  returned <$> run [0; 0; 0; 0; 1; 1; 1; 2; 2; 2; 0; 0]
                   (start (Part001.Async [Panicked Nil; Returned tt]) (fun _ => None) 0)
    = Some (Some None).
Proof. split; reflexivity. Qed.

(** ** Fan-out: two units of work panic *)

(** The two units of work of the failing run: they panic with the errors
    "a" and "b". *)
Definition wA : work := Panicked (Err (errorString "a")).
Definition wB : work := Panicked (Err (errorString "b")).

(** First goroutine entirely before the second: the second finds the first
    fault in [err] and joins its own to it. *)
Definition one_after_the_other : list nat :=
  [0; 0; 0; 0; 1; 1; 1; 1; 1; 2; 2; 2; 2; 2; 2; 0; 0].

(** Both goroutines evaluate [*err != nil] before either assigns [*err]:
    each finds nil, and the second assignment overwrites the first. *)
Definition both_read_first : list nat :=
  [0; 0; 0; 0; 1; 1; 2; 2; 1; 2; 1; 2; 1; 2; 0; 0].

(** C7. [Async] of src/xgo.go on two units of work that panic with the
    distinct errors "a" and "b". When the handlers run one after the other,
    the returned error joins both faults and [errors.Is] finds each. When
    both handlers read [err] before either writes it, the call returns "b"
    alone: the fault "a" is in it neither for [errors.Is] nor through
    [Unwrap() []error]. *)
Theorem Xgo_Async_loses_fault :
  returned <$> run one_after_the_other (start (Xgo.Async [wA; wB]) (fun _ => None) 0)
    = Some (Some (Some (joinError [errorString "a"; errorString "b"]))) /\
  Is (joinError [errorString "a"; errorString "b"]) (errorString "a") = true /\
  Is (joinError [errorString "a"; errorString "b"]) (errorString "b") = true /\
  returned <$> run both_read_first (start (Xgo.Async [wA; wB]) (fun _ => None) 0)
    = Some (Some (Some (errorString "b"))) /\
  Is (errorString "b") (errorString "a") = false /\
  UnwrapMulti (errorString "b") = [].
Proof. split_and!; reflexivity. Qed.

(** ** Fan-out in part_001: one captured fault is kept *)

(** The code that follows a [recover()] that yields [r], and a read that
    yields [v]. *)
Definition after_rec (p : prog unit) (r : any) : prog unit :=
  match p with
  | Rec k => k r
  | _ => p
  end.

Definition after_load (p : prog unit) (v : error_var) : prog unit :=
  match p with
  | Load _ k => k v
  | _ => p
  end.

(** The error the handlers make of a recovered value that is not nil. *)
Definition captured (r : any) : error :=
  match as_error r with
  | Some e => e
  | None => Errorf_v r
  end.

Section first_fault.
Variable fn : list work.
Variable n : loc.

(** The deferred calls of a goroutine of [Part001.Async]. *)
Definition deferred : prog unit := Part001.Recover (Some n) ;; wg_Done.

Lemma deferred_rec (r : any) (sh : shared) :
  step1 deferred (Some r) sh = Some (after_rec deferred r, None, sh, []).
Proof. reflexivity. Qed.

Lemma deferred_load (r : any) (sh : shared) :
  is_nil r = false ->
  step1 (after_rec deferred r) None sh
  = Some (after_load (after_rec deferred r) (heap sh n), None, sh, []).
Proof. by destruct r. Qed.

Lemma deferred_skip (r : any) (e : error) :
  is_nil r = false ->
  after_load (after_rec deferred r) (Some e) = Done (Ret tt).
Proof. by destruct r. Qed.

Lemma deferred_store (r : any) (sh : shared) :
  is_nil r = false ->
  step1 (after_load (after_rec deferred r) None) None sh
  = Some (Done (Ret tt), None,
          Shared (<[n := Some (captured r)]> (heap sh)) (next sh) (wg sh), []).
Proof. by destruct r. Qed.

(** Where the goroutine of a unit of work that panics with [r], not nil,
    can be, given what [err] holds: once its handler is through, [err] is
    not nil. *)
Inductive at_point (r : any) (v : error_var) : prog unit * option any -> Prop :=
| at_start : at_point r v (Run (Panicked r) deferred, None)
| at_recover : at_point r v (deferred, Some r)
| at_load : at_point r v (after_rec deferred r, None)
| at_store : at_point r v (after_load (after_rec deferred r) None, None)
| at_done : v <> None -> at_point r v (Done (Ret tt), None)
| at_end : v <> None -> at_point r v (Ret tt, None).

Lemma at_point_mono (r : any) (v v' : error_var) (g : prog unit * option any) :
  at_point r v g -> v' <> None -> at_point r v' g.
Proof. destruct 1; intros Hv; by constructor. Qed.

Lemma at_point_finished (r : any) (v : error_var) :
  is_nil r = false -> at_point r v (Ret tt, None) -> v <> None.
Proof.
  intros Hr Hp. inversion Hp as [| |H|H| |]; try done; by destruct r.
Qed.

(** The goroutine of the unit of work [f] is where it may be. *)
Definition thread_at (f : work) (v : error_var) (g : prog unit * option any) : Prop :=
  match f with
  | Returned _ => silent (snd g) (fst g)
  | Panicked r => if is_nil r then silent (snd g) (fst g) else at_point r v g
  end.

(** [err] holds nil or the fault captured from one of the units of work. *)
Definition one_of_faults (v : error_var) : Prop :=
  v = None \/
  exists i r, fn !! i = Some (Panicked r) /\ is_nil r = false /\ v = Some (captured r).

Definition first_fault_inv (c : cfg) : Prop :=
  (main_code c = async Part001.Recover fn \/ one_of_faults (heap (mem c) n)) /\
  (forall i g f, pool c !! i = Some g -> fn !! i = Some f ->
                 thread_at f (heap (mem c) n) g).

Lemma first_fault_start h : first_fault_inv (start (async Part001.Recover fn) h n).
Proof. split; [by left|]. intros i g f [=]. Qed.

Lemma thread_at_launch (f : work) (v : error_var) :
  thread_at f v (Run f deferred, None).
Proof.
  destruct f as [[]|r]; simpl.
  - apply silent_run; [done|]. by apply Recover_silent.
  - destruct (is_nil r) eqn:Hr; [|constructor].
    destruct r; try done. apply silent_run; [done|]. by apply Recover_silent.
Qed.

Lemma thread_at_mono (f : work) (v v' : error_var) (g : prog unit * option any) :
  thread_at f v g -> v' <> None -> thread_at f v' g.
Proof.
  destruct f as [[]|r]; simpl; [done|].
  destruct (is_nil r); [done|]. apply at_point_mono.
Qed.

(** One step of a goroutine: it stays where it may be, and either leaves
    the heap alone or assigns the fault it captured to [err]. *)
Lemma thread_at_step (f : work) (code code' : prog unit) (pan pan' : option any)
      (sh sh' : shared) (new : list (prog unit)) :
  thread_at f (heap sh n) (code, pan) ->
  step1 code pan sh = Some (code', pan', sh', new) ->
  thread_at f (heap sh' n) (code', pan') /\
  (heap sh' = heap sh \/
   exists r, f = Panicked r /\ is_nil r = false /\
             heap sh' = <[n := Some (captured r)]> (heap sh)).
Proof.
  intros Hat Hs.
  destruct f as [[]|r]; simpl in Hat |- *.
  { destruct (silent_step _ _ _ _ _ _ _ Hat Hs) as [H1 H2]. auto. }
  destruct (is_nil r) eqn:Hr.
  { destruct (silent_step _ _ _ _ _ _ _ Hat Hs) as [H1 H2]. auto. }
  remember (code, pan) as g eqn:Eg.
  destruct Hat as [| | | |Hv|Hv]; injection Eg as <- <-.
  - simpl in Hs. simplify_eq. split; [constructor|by left].
  - change (step1 deferred (Some r) sh = Some (code', pan', sh', new)) in Hs.
    rewrite deferred_rec in Hs. simplify_eq. split; [constructor|by left].
  - change (step1 (after_rec deferred r) None sh = Some (code', pan', sh', new)) in Hs.
    rewrite deferred_load in Hs by done. simplify_eq. split; [|by left].
    destruct (heap sh' n) as [x|] eqn:Hx.
    + rewrite deferred_skip by done. by constructor.
    + constructor.
  - change (step1 (after_load (after_rec deferred r) None) None sh
            = Some (code', pan', sh', new)) in Hs.
    rewrite deferred_store in Hs by done. simplify_eq. simpl. split.
    + constructor. by rewrite fn_lookup_insert.
    + right. by exists r.
  - simpl in Hs. simplify_eq. simpl. split; [by constructor|by left].
  - done.
Qed.

Lemma first_fault_step (t : nat) (c c' : cfg) :
  phase Part001.Recover fn n c -> first_fault_inv c ->
  sched_step t c = Some c' -> first_fault_inv c'.
Proof.
  intros Hc [Hone Hpool] Hs. unfold first_fault_inv.
  destruct Hc as [h|h Hn|launched rest pool h w Hfn Hlen Hok Hw|pool h Hlen Hf|pool h Hlen Hf].
  - destruct t as [|i]; simplify_eq/=.
    split; [right; left; apply fn_lookup_insert|]. intros i g f Hi. by destruct i.
  - destruct t as [|i]; simplify_eq/=.
    split; [by right; left|]. intros i g f Hi. by destruct i.
  - simpl in Hone, Hpool.
    destruct Hone as [Hone|Hone]; [by apply after_spawn_not_async in Hone|].
    destruct t as [|i].
    + destruct rest as [|f rest]; simpl in Hs.
      { case_bool_decide; simplify_eq/=. rewrite app_nil_r. by split; [right|]. }
      simplify_eq/=. split; [by right|].
      intros i g f0 Hi Hf0.
      apply lookup_app_Some in Hi as [Hi|[Hge Hi]]; [by eapply Hpool|].
      apply list_lookup_singleton_Some in Hi as [Hi <-].
      assert (i = length launched) as -> by lia.
      rewrite Hfn, list_lookup_middle in Hf0 by done. injection Hf0 as <-.
      apply thread_at_launch.
    + simpl in Hs. destruct (pool !! i) as [[code pan]|] eqn:Hi; [|done].
      pose proof (lookup_lt_Some _ _ _ Hi) as Hlt.
      pose proof (Forall_lookup_1 _ _ _ _ Hok Hi) as [Hfin|(b & Hg & Hb)].
      { injection Hfin as -> ->. done. }
      simpl in Hg, Hb.
      destruct (step1 code pan (Shared h (S n) w)) as [[[[code' pan'] sh'] new]|] eqn:Hstep;
        [|done].
      assert (new = []) as ->.
      { destruct (gcode_step b code pan (Shared h (S n) w) Hg Hb)
          as (? & ? & ? & Hstep' & _). congruence. }
      simplify_eq/=. rewrite app_nil_r.
      destruct (lookup_lt_is_Some_2 fn i) as [f Hf].
      { rewrite Hfn, length_app. lia. }
      destruct (thread_at_step f code code' pan pan' (Shared h (S n) _) _ _
                  (Hpool i _ f Hi Hf) Hstep)
        as [Hat Hheap]. simpl in Hat, Hheap.
      split.
      * right. destruct Hheap as [->|(r & -> & Hr & ->)]; [done|].
        right. exists i, r. by rewrite fn_lookup_insert.
      * intros j g f0 Hj Hf0. destruct (decide (j = i)) as [->|Hji].
        -- rewrite list_lookup_insert_eq in Hj by done. by simplify_eq.
        -- rewrite list_lookup_insert_ne in Hj by done.
           pose proof (Hpool j g f0 Hj Hf0) as Hold.
           destruct Hheap as [->|(r & -> & Hr & ->)]; [done|].
           eapply thread_at_mono; [done|]. by rewrite fn_lookup_insert.
  - destruct t as [|i]; [|by rewrite finished_no_step in Hs].
    simplify_eq/=. rewrite app_nil_r. split; [right|done].
    by destruct Hone as [Hone|Hone].
  - destruct t as [|i]; [done|by rewrite finished_no_step in Hs].
Qed.

Lemma first_fault_run (sched : list nat) (c c' : cfg) :
  phase Part001.Recover fn n c -> first_fault_inv c ->
  run sched c = Some c' ->
  phase Part001.Recover fn n c' /\ first_fault_inv c'.
Proof.
  revert c. induction sched as [|t sched IH]; intros c Hc Hi Hr; simplify_eq/=; [done|].
  destruct (sched_step t c) as [c1|] eqn:Hs; [|done].
  eapply IH; [eapply phase_step|eapply first_fault_step|]; eauto using Recover_gcode.
Qed.

(** Whenever the call returns, it returns nil or one of the captured
    faults, and not nil if a unit of work panicked with a value that is
    not nil. *)
Lemma first_fault_returned (c : cfg) (v : error_var) :
  phase Part001.Recover fn n c -> first_fault_inv c ->
  returned c = Some v ->
  one_of_faults v /\
  (forall i r, fn !! i = Some (Panicked r) -> is_nil r = false -> v <> None).
Proof.
  intros Hc [Hone Hpool] Hv.
  destruct (phase_returned _ _ _ c v Hc Hv) as (Hlen & Hfin & -> & _).
  split.
  - destruct Hone as [Hone|Hone]; [|done].
    unfold returned in Hv. rewrite Hone in Hv. done.
  - intros i r Hi Hr.
    destruct (lookup_lt_is_Some_2 (pool c) i) as [g Hg].
    { rewrite Hlen. by eapply lookup_lt_Some. }
    pose proof (Forall_lookup_1 _ _ _ _ Hfin Hg) as ->.
    specialize (Hpool i _ _ Hg Hi). simpl in Hpool. rewrite Hr in Hpool.
    by eapply at_point_finished.
Qed.
End first_fault.

(** Policy (b) in part_001, for reads and writes of [err] that are
    indivisible, as every step of this model is: [Async] on two units of
    work that panic with the errors [e1] and [e2] returns, in every
    interleaving in which it returns, exactly one of the two; and it can
    always get to return. (The handlers are not synchronised: a write of
    the two words of an interface value that is torn by another is outside
    this model.) *)
Lemma Part001_Async_keeps_one (e1 e2 : error) (h : loc -> error_var) (n : loc)
      (sched : list nat) (c : cfg) :
  run sched (start (Part001.Async [Panicked (Err e1); Panicked (Err e2)]) h n) = Some c ->
  (forall v, returned c = Some v -> v = Some e1 \/ v = Some e2) /\
  can_return c.
Proof.
  intros Hrun.
  destruct (first_fault_run [Panicked (Err e1); Panicked (Err e2)] n sched _ c
              (phase_start _ _ _ h) (first_fault_start _ _ h) Hrun) as [Hph Hinv].
  split; [|by eapply phase_can_return; [apply Recover_gcode|]].
  intros v Hv.
  destruct (first_fault_returned _ _ c v Hph Hinv Hv) as [[->|(i & r & Hi & Hr & ->)] Hne].
  - by destruct (Hne 0 (Err e1)).
  - destruct i as [|[|i]]; simplify_eq/=; auto.
Qed.

(** * The remaining helpers of the package *)

(** ** Value helpers: [In], [Or], [FilterFunc], [Exclude], [ExcludeFunc]

    The text of these functions is the same in src/xgo.go and part_001;
    part_002 names the two function filters [FilterFn] and [ExcludeFn].
    [T] stands for a comparable type whose [==] is equality (no NaN, no
    interface holding an incomparable value); [zero] is its zero value, what
    an unassigned result holds. *)
Module Generic.
Section helpers.
Context {T : Type} `{EqDecision T}.
Variable zero : T.

(** [In(v, value...)]. *)
Fixpoint In (v : T) (value : list T) : bool :=
  match value with
  | [] => false
  | v2 :: rest => if bool_decide (v = v2) then true else In v rest
  end.

(** [Or(values...)]. *)
Fixpoint Or (values : list T) : T :=
  match values with
  | [] => zero
  | v :: rest => if bool_decide (v <> zero) then v else Or rest
  end.

(** [FilterFunc(v, filter)]. *)
Definition FilterFunc (v : T) (filter : T -> bool) : T :=
  if filter v then v else zero.

(** [Exclude(v, vv...)]. *)
Definition Exclude (v : T) (vv : list T) : T :=
  if In v vv then zero else v.

(** [ExcludeFunc(v, exclude)]. *)
Definition ExcludeFunc (v : T) (exclude : T -> bool) : T :=
  if exclude v then zero else v.

Lemma In_true (v : T) (value : list T) : In v value = true <-> v ∈ value.
Proof.
  induction value as [|v2 rest IH]; simpl.
  - split; [done|]. by intros ?%elem_of_nil.
  - rewrite elem_of_cons. case_bool_decide; [tauto|].
    rewrite IH. split; [auto|]. intros [?|?]; [congruence|done].
Qed.

(** Where [==] is equality, [In] decides membership: it reports true
    exactly when the value is one of the listed ones, and false exactly
    when it is none of them. *)
Theorem In_elem_of (v : T) (value : list T) :
  (In v value = true <-> v ∈ value) /\ (In v value = false <-> v ∉ value).
Proof.
  split; [apply In_true|]. rewrite <- In_true. by destruct (In v value).
Qed.

Lemma In_app (v : T) (xs ys : list T) : In v (xs ++ ys) = In v xs || In v ys.
Proof. induction xs as [|x xs IH]; simpl; [done|]. by case_bool_decide. Qed.

(** X2. [Or] returns the zero value exactly when every listed value is the
    zero value; in particular for no values at all. *)
Theorem Or_zero_iff (values : list T) :
  Or values = zero <-> Forall (fun v => v = zero) values.
Proof.
  induction values as [|v rest IH]; simpl; [by split|].
  rewrite Forall_cons. case_bool_decide as Hv.
  - split; [done|]. by intros [? _].
  - rewrite IH. tauto.
Qed.

(** X3. When [Or] returns a value other than the zero value, it is the
    first listed value that is not the zero value: all values before it are
    the zero value. *)
Theorem Or_first (values : list T) :
  Or values <> zero ->
  exists before after,
    values = before ++ Or values :: after /\
    Forall (fun v => v = zero) before.
Proof.
  induction values as [|v rest IH]; simpl; [done|].
  case_bool_decide as Hv.
  - intros _. by exists [], rest.
  - intros Hne.
    destruct (IH Hne) as (before & after & Hrest & Hz).
    exists (v :: before), after. split; [|by constructor].
    simpl. by rewrite <- Hrest.
Qed.

(** X4. [Or] over a concatenation is [Or] of the results for the two
    parts: the choice can be made part by part. *)
Theorem Or_app (xs ys : list T) : Or (xs ++ ys) = Or [Or xs; Or ys].
Proof.
  induction xs as [|x xs IH]; simpl.
  - repeat case_bool_decide; congruence.
  - case_bool_decide as Hx; simpl; [by rewrite bool_decide_true|].
    rewrite IH. by simpl.
Qed.

(** Where [==] is equality, a result of [Exclude] other than the zero
    value is the argument and is not among the excluded values. *)
Theorem Exclude_result (v : T) (vv : list T) :
  Exclude v vv <> zero -> Exclude v vv = v /\ v ∉ vv.
Proof.
  unfold Exclude. destruct (In v vv) eqn:Hin; [done|].
  intros _. split; [done|]. rewrite <- In_true. congruence.
Qed.

(** X6. Excluding in two rounds is excluding the concatenated list. *)
Theorem Exclude_app (v : T) (xs ys : list T) :
  Exclude (Exclude v xs) ys = Exclude v (xs ++ ys).
Proof.
  unfold Exclude. rewrite In_app.
  destruct (In v xs); simpl; [|done]. by destruct (In zero ys).
Qed.

(** X7. [FilterFunc] and [ExcludeFunc] with the same predicate split a
    value: one of them returns it and the other the zero value, so that [Or]
    of the two results is the value again; and [Exclude] is [ExcludeFunc]
    with [In] as the predicate. *)
Theorem Filter_Exclude_split (v : T) (f : T -> bool) (vv : list T) :
  (FilterFunc v f = v /\ ExcludeFunc v f = zero \/
   FilterFunc v f = zero /\ ExcludeFunc v f = v) /\
  Or [FilterFunc v f; ExcludeFunc v f] = v /\
  Exclude v vv = ExcludeFunc v (fun x => In x vv).
Proof.
  unfold FilterFunc, ExcludeFunc, Exclude.
  destruct (f v); simpl; repeat case_bool_decide; split_and!; auto; congruence.
Qed.

End helpers.
End Generic.

Lemma Generic_Or_first_witness :
  exists before after,
    [0; 0; 7; 3] = before ++ Generic.Or 0 [0; 0; 7; 3] :: after /\
    Forall (fun v => v = 0) before.
Proof. apply (Generic.Or_first 0 [0; 0; 7; 3]). discriminate. Defined.

Lemma Generic_Exclude_result_witness :
  Generic.Exclude 0 5 [1; 2] = 5 /\ 5 ∉ [1; 2].
Proof. apply (Generic.Exclude_result 0 5 [1; 2]). discriminate. Defined.

(** ** The panicking helpers under [Call] *)

(** A unit of work that goes on with [k] once a call has returned; when the
    call panics, the rest of the unit of work does not run. *)
Definition and_then {A B : Type} (o : outcome A) (k : A -> outcome B) : outcome B :=
  match o with
  | Returned a => k a
  | Panicked r => Panicked r
  end.

(** X8. In part_001, [Call] undoes [OK] (and [NoErr]): a unit of work that
    passes an error to [OK] makes [Call] return that very error, and nil
    for the nil error. *)
Theorem Part001_Call_OK (err : error_var) (sh : shared) :
  outcome_of (Part001.Call (Part001.OK err)) sh = Some (Returned err) /\
  outcome_of (Part001.Call (Part001.NoErr err)) sh = Some (Returned err).
Proof. rewrite !Part001_Call_outcome. by destruct err. Qed.

(** X9. In src/xgo.go, [Call] around [OK] (and [NoErr]) returns nil for the
    nil error, and for an error [e] a new error whose [Unwrap] is [e], in
    which [errors.Is] finds [e], and whose message is the message of [e]
    followed by a line feed, a tab and the position of the caller of [OK]. *)
Theorem Xgo_Call_OK (err : error_var) (caller : position) (sh : shared) :
  Xgo.NoErr err caller = Xgo.OK err caller /\
  match err with
  | None => outcome_of (Xgo.Call (Xgo.OK err caller)) sh = Some (Returned None)
  | Some e =>
      exists res : error,
        outcome_of (Xgo.Call (Xgo.OK err caller)) sh = Some (Returned (Some res)) /\
        Unwrap res = Some e /\
        Is res e = true /\
        Error res = Error e +:+ LF +:+ TAB +:+ file caller +:+ ":" +:+ fmt_d (line caller)
  end.
Proof.
  split; [done|]. rewrite Xgo_Call_outcome. destruct err as [e|]; simpl; [|done].
  eexists. split; [done|]. split; [done|]. split; [apply Is_wrap|done].
Qed.

(** X10. [Val] hands its value on when the error is nil, and the unit of
    work goes on with it; when the error is not nil, the rest of the unit of
    work is skipped, whatever it is, and [Call] returns the error: itself in
    part_001, wrapped with the caller's position in src/xgo.go. *)
Theorem Val_under_Call {T : Type} (v : T) (err : error_var) (k : T -> work)
        (caller : position) (sh : shared) :
  match err with
  | None =>
      outcome_of (Part001.Call (and_then (Part001.Val v err) k)) sh
        = outcome_of (Part001.Call (k v)) sh /\
      outcome_of (Xgo.Call (and_then (Xgo.Val v err caller) k)) sh
        = outcome_of (Xgo.Call (k v)) sh
  | Some e =>
      outcome_of (Part001.Call (and_then (Part001.Val v err) k)) sh
        = Some (Returned (Some e)) /\
      exists res : error,
        outcome_of (Xgo.Call (and_then (Xgo.Val v err caller) k)) sh
          = Some (Returned (Some res)) /\
        Unwrap res = Some e
  end.
Proof.
  destruct err as [e|]; simpl; [|done].
  rewrite Part001_Call_outcome, Xgo_Call_outcome. split; [done|]. by eexists.
Qed.

(** X11. A function that defers [Mute] returns normally however its body
    ends, and the shared state is as the body left it: the fault is
    recorded nowhere. *)
Theorem Mute_drops_fault (fn : work) (sh : shared) :
  call (invoke fn ;; Xgo.Mute) sh = Some (Returned tt, sh) /\
  call (invoke fn ;; Part001.Mute) sh = Some (Returned tt, sh).
Proof. by destruct fn as [[]|r]. Qed.

(** X12. [Call] writes to nothing but its own result: every variable that
    existed before the call holds what it held, and the counter of the wait
    group is untouched. *)
Theorem Call_frame (fn : work) (sh : shared) :
  (exists v sh',
      call (Xgo.Call fn) sh = Some (Returned v, sh') /\
      (forall l, l <> next sh -> heap sh' l = heap sh l) /\
      wg sh' = wg sh) /\
  (exists v sh',
      call (Part001.Call fn) sh = Some (Returned v, sh') /\
      (forall l, l <> next sh -> heap sh' l = heap sh l) /\
      wg sh' = wg sh).
Proof.
  split; destruct fn as [[]|[]]; unfold call; cbn;
    rewrite ?fn_lookup_insert; cbn;
    (eexists _, _; split; [reflexivity|]; split; [|done]);
    intros l Hl; simpl; by rewrite ?fn_lookup_insert_ne.
Qed.

(** X13. [Catch] of src/xgo.go, run as a deferred call while a panic with a
    value other than nil is in flight and the variable already holds an
    error, stores the join of the old error and the new fault: [errors.Is]
    finds both in what the variable holds afterwards. *)
Theorem Catch_joins_stored_error (l : loc) (old : error) (r : any) (sh : shared) :
  heap sh l = Some old ->
  r <> Nil ->
  exists sh',
    exec (Xgo.Catch (Some l)) (Some r) sh = Some (tt, None, sh') /\
    heap sh' l = Some (joinError [old; captured r]) /\
    Is (joinError [old; captured r]) old = true /\
    Is (joinError [old; captured r]) (captured r) = true.
Proof.
  intros Hold Hr.
  exists (Shared (<[l := Some (joinError [old; captured r])]> (heap sh)) (next sh) (wg sh)).
  split_and!.
  - destruct r; try done; cbn; rewrite Hold; cbn; rewrite Hold; reflexivity.
  - apply fn_lookup_insert.
  - apply Is_join. apply elem_of_cons. by left.
  - apply Is_join. apply elem_of_cons. right. apply elem_of_cons. by left.
Qed.

Lemma Catch_joins_stored_error_witness :
  exists sh',
    exec (Xgo.Catch (Some 0)) (Some (Str "new"))
         (Shared (fun _ => Some (errorString "old")) 1 0) = Some (tt, None, sh') /\
    heap sh' 0 = Some (joinError [errorString "old"; captured (Str "new")]) /\
    Is (joinError [errorString "old"; captured (Str "new")]) (errorString "old") = true /\
    Is (joinError [errorString "old"; captured (Str "new")]) (captured (Str "new")) = true.
Proof.
  apply (Catch_joins_stored_error 0 (errorString "old") (Str "new")
           (Shared (fun _ => Some (errorString "old")) 1 0));
    [reflexivity|discriminate].
Defined.

(** X14. [Recover] of part_001, run as a deferred call while a panic is in
    flight and the variable already holds an error, stops the panic and
    leaves the variable as it is: the error stored first is kept and the new
    fault is dropped. *)
Theorem Recover_keeps_stored_error (l : loc) (old : error) (r : any) (sh : shared) :
  heap sh l = Some old ->
  exec (Part001.Recover (Some l)) (Some r) sh = Some (tt, None, sh).
Proof. intros Hold. destruct r; cbn; rewrite ?Hold; reflexivity. Qed.

Lemma Recover_keeps_stored_error_witness :
  exec (Part001.Recover (Some 0)) (Some (Str "new"))
       (Shared (fun _ => Some (errorString "old")) 1 0)
  = Some (tt, None, Shared (fun _ => Some (errorString "old")) 1 0).
Proof.
  apply (Recover_keeps_stored_error 0 (errorString "old") (Str "new")
           (Shared (fun _ => Some (errorString "old")) 1 0)).
  reflexivity.
Defined.

(** ** Fan-out: more on [Async] *)

Section all_quiet.
Variable handler : ptr -> prog unit.
Variable fn : list work.
Variable n : loc.
Hypothesis handler_gcode : gcode true (handler (Some n) ;; wg_Done).
Hypothesis handler_silent :
  forall pan, default Nil pan = Nil -> silent pan (handler (Some n) ;; wg_Done).
Hypothesis fn_quiet : Forall quiet fn.

(** Once [err] exists it holds nil, and no goroutine touches it. *)
Definition all_quiet_inv (c : cfg) : Prop :=
  (main_code c = async handler fn \/ heap (mem c) n = None) /\
  Forall (fun g => silent (snd g) (fst g)) (pool c).

Lemma all_quiet_step (t : nat) (c c' : cfg) :
  phase handler fn n c -> all_quiet_inv c ->
  sched_step t c = Some c' -> all_quiet_inv c'.
Proof.
  intros Hc [Hnil Hpool] Hs. unfold all_quiet_inv.
  destruct Hc as [h|h Hn|launched rest pool h w Hfn Hlen Hok Hw|pool h Hlen Hf|pool h Hlen Hf].
  - destruct t as [|i]; simplify_eq/=.
    split; [right; apply fn_lookup_insert|constructor].
  - destruct t as [|i]; simplify_eq/=. split; [by right|constructor].
  - simpl in Hnil, Hpool.
    destruct Hnil as [Hnil|Hnil]; [by apply after_spawn_not_async in Hnil|].
    destruct t as [|i].
    + destruct rest as [|f rest]; simpl in Hs.
      { case_bool_decide; simplify_eq/=. rewrite ?app_nil_r. split; [by right|done]. }
      simplify_eq/=. split; [by right|].
      apply Forall_app. split; [done|]. constructor; [|constructor]. simpl.
      assert (quiet f) as Hq.
      { pose proof fn_quiet as Hq0. rewrite Forall_app, Forall_cons in Hq0. tauto. }
      apply silent_run; [done|]. apply handler_silent. by destruct f as [[]|[]].
    + simpl in Hs. destruct (pool !! i) as [[code pan]|] eqn:Hi; [|done].
      pose proof (Forall_lookup_1 _ _ _ _ Hok Hi) as [Hfin|(b & Hg & Hb)].
      { injection Hfin as -> ->. done. }
      simpl in Hg, Hb.
      destruct (step1 code pan (Shared h (S n) w)) as [[[[code' pan'] sh'] new]|] eqn:Hstep;
        [|done].
      assert (new = []) as ->.
      { destruct (gcode_step b code pan (Shared h (S n) w) Hg Hb)
          as (? & ? & ? & Hstep' & _). congruence. }
      simplify_eq/=. rewrite app_nil_r.
      pose proof (Forall_lookup_1 _ _ _ _ Hpool Hi) as Hsil. simpl in Hsil.
      destruct (silent_step _ _ _ _ _ _ _ Hsil Hstep) as [Hsil' Hheap].
      simpl in Hheap. split; [right; by rewrite Hheap|].
      by apply Forall_insert.
  - destruct t as [|i]; [|by rewrite finished_no_step in Hs].
    simplify_eq/=. rewrite app_nil_r. split; [right|done].
    by destruct Hnil as [Hnil|Hnil].
  - destruct t as [|i]; [done|by rewrite finished_no_step in Hs].
Qed.

Lemma all_quiet_run (sched : list nat) (c c' : cfg) :
  phase handler fn n c -> all_quiet_inv c ->
  run sched c = Some c' ->
  phase handler fn n c' /\ all_quiet_inv c'.
Proof.
  revert c. induction sched as [|t sched IH]; intros c Hc Hi Hr; simplify_eq/=; [done|].
  destruct (sched_step t c) as [c1|] eqn:Hs; [|done].
  eapply IH; [eapply phase_step|eapply all_quiet_step|]; eauto.
Qed.

Lemma all_quiet_result (h : loc -> error_var) (sched : list nat) (c : cfg) (v : error_var) :
  run sched (start (async handler fn) h n) = Some c ->
  returned c = Some v -> v = None.
Proof.
  intros Hrun Hv.
  destruct (all_quiet_run sched _ c (phase_start _ _ _ h)) as [Hph [Hnil _]]; [|done|].
  { split; [by left|constructor]. }
  destruct (phase_returned _ _ _ c v Hph Hv) as (_ & _ & -> & _).
  destruct Hnil as [Hnil|Hnil]; [|done].
  unfold returned in Hv. by rewrite Hnil in Hv.
Qed.
End all_quiet.

(** X15. When no unit of work leaves a fault (each returns, or panics with
    what [recover()] yields as nil), and in particular when there is no
    unit of work at all, [Async] returns nil in every interleaving in which
    it returns. Holds for src/xgo.go and for part_001. *)
Theorem Async_all_quiet (fn : list work) (h : loc -> error_var) (n : loc)
        (sched : list nat) (c : cfg) (v : error_var) :
  Forall quiet fn ->
  run sched (start (Xgo.Async fn) h n) = Some c \/
  run sched (start (Part001.Async fn) h n) = Some c ->
  returned c = Some v ->
  v = None.
Proof.
  intros Hq [Hrun|Hrun] Hv.
  - eapply (all_quiet_result Xgo.Catch); eauto using Catch_gcode, Catch_silent.
  - eapply (all_quiet_result Part001.Recover); eauto using Recover_gcode, Recover_silent.
Qed.

Lemma Async_all_quiet_witness : @None error = None.
Proof.
  apply (Async_all_quiet [] (fun _ => None) 0 [0; 0; 0; 0]
           (Cfg (Ret None) None [] (Shared (<[0 := None]> (fun _ => None)) 1 0)) None).
  - constructor.
  - left. reflexivity.
  - reflexivity.
Defined.

(** X16. Among any number of units of work, when exactly one, at any
    position, panics with a value other than nil and the others leave no
    fault, [Async] returns the fault captured from that one, in every
    interleaving in which it returns, and it can always get to return.
    Holds for src/xgo.go and for part_001. *)
Theorem Async_single_fault (fn : list work) (k : nat) (r : any)
        (h : loc -> error_var) (n : loc) (sched : list nat) (c : cfg) :
  fn !! k = Some (Panicked r) ->
  r <> Nil ->
  (forall i f, i <> k -> fn !! i = Some f -> quiet f) ->
  run sched (start (Xgo.Async fn) h n) = Some c \/
  run sched (start (Part001.Async fn) h n) = Some c ->
  (forall v, returned c = Some v -> v = Some (captured r)) /\
  (exists sched' c', run sched' c = Some c' /\ returned c' = Some (Some (captured r))).
Proof.
  intros Hk Hr Hq [Hrun|Hrun].
  - eapply (one_fault_result Xgo.Catch fn n k r);
      eauto using Catch_gcode, Catch_silent. intros h'. by apply Catch_leaves.
  - eapply (one_fault_result Part001.Recover fn n k r);
      eauto using Recover_gcode, Recover_silent. intros h'. by apply Recover_leaves.
Qed.

Lemma Async_single_fault_witness :
  (forall v,
      returned (start (Xgo.Async [Returned tt; Returned tt; Panicked (Str "boom")])
                      (fun _ => None) 0) = Some v ->
      v = Some (captured (Str "boom"))) /\
  (exists sched' c',
      run sched' (start (Xgo.Async [Returned tt; Returned tt; Panicked (Str "boom")])
                        (fun _ => None) 0) = Some c' /\
      returned c' = Some (Some (captured (Str "boom")))).
Proof.
  apply (Async_single_fault [Returned tt; Returned tt; Panicked (Str "boom")] 2 (Str "boom")
           (fun _ => None) 0 []).
  - reflexivity.
  - discriminate.
  - intros [|[|[|i]]] f Hi Hf; simplify_eq/=; done.
  - left. reflexivity.
Defined.

(** X18. [Async] never gets stuck: from every state that an interleaving of
    its goroutines can reach, for any units of work, there is a way on to a
    state in which the call has returned. Holds for src/xgo.go and for
    part_001. *)
Theorem Async_can_always_return (fn : list work) (h : loc -> error_var) (n : loc)
        (sched : list nat) (c : cfg) :
  run sched (start (Xgo.Async fn) h n) = Some c \/
  run sched (start (Part001.Async fn) h n) = Some c ->
  exists sched' c' v, run sched' c = Some c' /\ returned c' = Some v.
Proof.
  intros [Hrun|Hrun].
  - eapply (phase_can_return Xgo.Catch fn n (Catch_gcode n)).
    eapply phase_run; [apply Catch_gcode|apply phase_start|exact Hrun].
  - eapply (phase_can_return Part001.Recover fn n (Recover_gcode n)).
    eapply phase_run; [apply Recover_gcode|apply phase_start|exact Hrun].
Qed.

Lemma Async_can_always_return_witness :
  exists sched' c' v,
    run sched' (start (Xgo.Async [wA; wB]) (fun _ => None) 0) = Some c' /\
    returned c' = Some v.
Proof.
  apply (Async_can_always_return [wA; wB] (fun _ => None) 0 []). left. reflexivity.
Defined.

(** ** [Go]: fire and forget *)

(** Code of a launched goroutine that launches nothing, waits for nothing
    and ends with no panic in flight. The index says whether the code may
    be entered with a panic in flight: if so, it calls [recover()] before
    it ends. *)
Inductive settles : bool -> prog unit -> Prop :=
| settles_ret : settles false (Ret tt)
| settles_run b fn k : settles true k -> settles b (Run fn k)
| settles_rec b k : (forall r, settles false (k r)) -> settles b (Rec k)
| settles_new b k : (forall l, settles b (k l)) -> settles b (New k)
| settles_load b p k : (forall v, settles b (k v)) -> settles b (Load p k)
| settles_store b p v k : settles b k -> settles b (Store p v k).

Lemma Xgo_Call_settles (fn : work) : settles false (_ <- Xgo.Call fn ;; Ret tt).
Proof.
  apply settles_new. intros l. cbn. apply settles_run, settles_rec. intros r. cbn.
  destruct (is_nil r); cbn; [repeat constructor|].
  apply settles_load. intros [cur|]; cbn.
  - apply settles_load. intros cur'. cbn. repeat constructor.
  - repeat constructor.
Qed.

Lemma Part001_Call_settles (fn : work) : settles false (_ <- Part001.Call fn ;; Ret tt).
Proof.
  apply settles_new. intros l. cbn. apply settles_run, settles_rec. intros r. cbn.
  destruct (is_nil r); cbn; [repeat constructor|].
  apply settles_load. intros [cur|]; cbn; [repeat constructor|].
  destruct (as_error r); cbn; repeat constructor.
Qed.

Lemma settles_step (b : bool) (code : prog unit) (pan : option any) (sh : shared) :
  settles b code ->
  (is_Some pan -> b = true) ->
  (code = Ret tt /\ pan = None) \/
  exists code' pan' sh' b',
    step1 code pan sh = Some (code', pan', sh', []) /\
    settles b' code' /\ (is_Some pan' -> b' = true).
Proof.
  intros Hs Hb. destruct Hs as [|b fn k Hk|b k Hk|b k Hk|b p k Hk|b p v k Hk]; simpl.
  - left. split; [done|]. destruct pan; [by discriminate Hb|done].
  - right. eexists _, _, _, true. done.
  - right. eexists _, _, _, false. split_and!; [done..|]. by intros [? [=]].
  - right. eexists _, _, _, b. done.
  - right. eexists _, _, _, b. done.
  - right. eexists _, _, _, b. done.
Qed.

Section fire_and_forget.
Variable body : prog unit.
Hypothesis body_settles : settles false body.

(** A caller that does [go body] and returns nil: either it has not yet
    launched the goroutine, or it has returned and the one goroutine is
    about, on its way to an end with no panic in flight. *)
Definition forgotten (c : cfg) : Prop :=
  main_pan c = None /\
  (main_code c = Spawn body (Ret None) /\ pool c = [] \/
   main_code c = Ret None /\
   exists code pan b, pool c = [(code, pan)] /\ settles b code /\
                      (is_Some pan -> b = true)).

Lemma forgotten_step (t : nat) (c c' : cfg) :
  forgotten c -> sched_step t c = Some c' -> forgotten c'.
Proof.
  destruct c as [m mp pool sh].
  intros [Hmp [[Hm Hp]|[Hm (code & pan & b & Hp & Hs & Hb)]]] Hstep; simpl in *; subst.
  - destruct t as [|i]; simplify_eq/=. split; [done|]. right. split; [done|].
    exists body, None, false. split_and!; [done..|]. by intros [? [=]].
  - destruct t as [|[|i]]; simplify_eq/=.
    destruct (settles_step b code pan sh Hs Hb)
      as [[-> ->]|(code' & pan' & sh' & b' & Hst & Hs' & Hb')]; [done|].
    rewrite Hst in Hstep. simplify_eq/=. split; [done|]. right. split; [done|].
    by exists code', pan', b'.
Qed.

Lemma forgotten_run (sched : list nat) (c c' : cfg) :
  forgotten c -> run sched c = Some c' -> forgotten c'.
Proof.
  revert c. induction sched as [|t sched IH]; intros c Hc Hr; simplify_eq/=; [done|].
  destruct (sched_step t c) as [c1|] eqn:Hs; [|done].
  eauto using forgotten_step.
Qed.

(** The goroutine can always be run to its end. *)
Lemma settles_finish (b : bool) (code : prog unit) :
  settles b code ->
  forall (pan : option any) (sh : shared),
    (is_Some pan -> b = true) ->
    exists sched sh',
      run sched (Cfg (Ret None) None [(code, pan)] sh)
      = Some (Cfg (Ret None) None [(Ret tt, None)] sh').
Proof.
  induction 1 as [|b fn k Hk IH|b k Hk IH|b k Hk IH|b p k Hk IH|b p v k Hk IH];
    intros pan sh Hb.
  - destruct pan; [by discriminate Hb|]. by exists [], sh.
  - destruct (IH (match fn with Returned _ => pan | Panicked r => Some r end) sh)
      as (sched & sh' & Hr); [done|].
    exists (1 :: sched), sh'. simpl. by rewrite Hr.
  - destruct (IH (default Nil pan) None sh) as (sched & sh' & Hr); [by intros [? [=]]|].
    exists (1 :: sched), sh'. simpl. by rewrite Hr.
  - destruct (IH (next sh) pan
                 (Shared (<[next sh := None]> (heap sh)) (S (next sh)) (wg sh)))
      as (sched & sh' & Hr); [done|].
    exists (1 :: sched), sh'. simpl. by rewrite Hr.
  - destruct (IH (heap sh p) pan sh) as (sched & sh' & Hr); [done|].
    exists (1 :: sched), sh'. simpl. by rewrite Hr.
  - destruct (IH pan (Shared (<[p := v]> (heap sh)) (next sh) (wg sh)))
      as (sched & sh' & Hr); [done|].
    exists (1 :: sched), sh'. simpl. by rewrite Hr.
Qed.

Lemma forgotten_result (h : loc -> error_var) (n : loc) (sched : list nat) (c : cfg) :
  run sched (start (Spawn body (Ret None)) h n) = Some c ->
  Forall (fun g => ended g = true -> snd g = None) (pool c) /\
  exists sched' sh',
    run sched' c = Some (Cfg (Ret None) None [(Ret tt, None)] sh').
Proof.
  intros Hrun.
  assert (forgotten c) as [Hmp [[Hm Hp]|[Hm (code & pan & b & Hp & Hs & Hb)]]].
  { eapply forgotten_run; [|exact Hrun]. split; [done|]. by left. }
  - destruct c as [m mp pool sh]. simpl in *. subst. split; [constructor|].
    destruct (settles_finish false body body_settles None sh) as (s & sh' & Hr).
    { by intros [? [=]]. }
    exists (0 :: s), sh'. simpl. exact Hr.
  - destruct c as [m mp pool sh]. simpl in *. subst. split.
    + constructor; [|constructor]. simpl. intros Hend.
      destruct (settles_step b code pan sh Hs Hb) as [[-> ->]|(? & ? & ? & ? & Hst & _)];
        [done|]. by destruct code.
    + by apply (settles_finish b code Hs).
Qed.
End fire_and_forget.

(** X20. [Go] does not hold its caller back and lets no panic out. A caller
    that calls [Go(fn)] and returns has returned after its own next step,
    before the launched goroutine has taken any; in every interleaving, the
    launched goroutine, if it has ended, has ended with no panic in flight,
    whatever [fn] does; and it can always be run to its end. What [Call]
    returned in it is handed to nobody. Holds for src/xgo.go and for
    part_001. *)
Theorem Go_fire_and_forget (fn : work) (h : loc -> error_var) (n : loc) :
  (returned <$> run [0] (start (Xgo.Go fn ;; Ret None) h n) = Some (Some None) /\
   pool <$> run [0] (start (Xgo.Go fn ;; Ret None) h n)
     = Some [(_ <- Xgo.Call fn ;; Ret tt, None)] /\
   forall sched c,
     run sched (start (Xgo.Go fn ;; Ret None) h n) = Some c ->
     Forall (fun g => ended g = true -> snd g = None) (pool c) /\
     exists sched' sh',
       run sched' c = Some (Cfg (Ret None) None [(Ret tt, None)] sh')) /\
  (returned <$> run [0] (start (Part001.Go fn ;; Ret None) h n) = Some (Some None) /\
   pool <$> run [0] (start (Part001.Go fn ;; Ret None) h n)
     = Some [(_ <- Part001.Call fn ;; Ret tt, None)] /\
   forall sched c,
     run sched (start (Part001.Go fn ;; Ret None) h n) = Some c ->
     Forall (fun g => ended g = true -> snd g = None) (pool c) /\
     exists sched' sh',
       run sched' c = Some (Cfg (Ret None) None [(Ret tt, None)] sh')).
Proof.
  split; (split; [reflexivity|]; split; [reflexivity|]); intros sched c Hrun.
  - by apply (forgotten_result _ (Xgo_Call_settles fn) h n sched).
  - by apply (forgotten_result _ (Part001_Call_settles fn) h n sched).
Qed.

Lemma Go_fire_and_forget_witness :
  Forall (fun g => ended g = true -> snd g = None)
         [(Ret tt : prog unit, @None any)].
Proof.
  destruct (Go_fire_and_forget (Panicked (Str "boom")) (fun _ => None) 0)
    as [(_ & _ & H) _].
  destruct (H [0; 1; 1; 1; 1; 1; 1]
              (Cfg (Ret None) None [(Ret tt, None)]
                   (Shared (<[0 := Some (errorString "boom")]> (<[0 := None]> (fun _ => None)))
                           1 0))
              eq_refl) as [Hall _].
  exact Hall.
Defined.

(** ** The handlers when nothing is to be recovered *)

(** X21. Run as deferred calls while no panic is in flight, or while
    [recover()] yields nil, [Catch], [Recover] and [Mute] change nothing:
    the variable keeps what it holds, be it an error the function is about
    to return. *)
Theorem handlers_idle (p : ptr) (pan : option any) (sh : shared) :
  default Nil pan = Nil ->
  exec (Xgo.Catch p) pan sh = Some (tt, None, sh) /\
  exec (Part001.Recover p) pan sh = Some (tt, None, sh) /\
  exec Xgo.Mute pan sh = Some (tt, None, sh).
Proof.
  intros Hpan. unfold Xgo.Catch, Part001.Recover, Xgo.Mute. cbn.
  rewrite Hpan. by destruct p.
Qed.

Lemma handlers_idle_witness :
  exec (Xgo.Catch (Some 0)) None (Shared (fun _ => Some (errorString "kept")) 1 0)
    = Some (tt, None, Shared (fun _ => Some (errorString "kept")) 1 0) /\
  exec (Part001.Recover (Some 0)) None (Shared (fun _ => Some (errorString "kept")) 1 0)
    = Some (tt, None, Shared (fun _ => Some (errorString "kept")) 1 0) /\
  exec Xgo.Mute None (Shared (fun _ => Some (errorString "kept")) 1 0)
    = Some (tt, None, Shared (fun _ => Some (errorString "kept")) 1 0).
Proof.
  apply (handlers_idle (Some 0) None (Shared (fun _ => Some (errorString "kept")) 1 0)).
  reflexivity.
Defined.

(** ** [Async] on one unit of work *)

Lemma single_unit_quiet (fn : work) (i : nat) (f : work) :
  i <> 0 -> [fn] !! i = Some f -> quiet f.
Proof. by destruct i. Qed.

(** X22. [Async] on a single unit of work agrees with [Call]: in every
    interleaving in which it returns, it returns what [Call] returns for
    that unit of work. Holds for src/xgo.go and for part_001. *)
Theorem Async_single_is_Call (fn : work) (h : loc -> error_var) (n : loc)
        (sched : list nat) (c : cfg) (v : error_var) (sh : shared) :
  (run sched (start (Xgo.Async [fn]) h n) = Some c ->
   returned c = Some v ->
   outcome_of (Xgo.Call fn) sh = Some (Returned v)) /\
  (run sched (start (Part001.Async [fn]) h n) = Some c ->
   returned c = Some v ->
   outcome_of (Part001.Call fn) sh = Some (Returned v)).
Proof.
  rewrite Xgo_Call_outcome, Part001_Call_outcome.
  assert (quiet fn \/ exists r, fn = Panicked r /\ r <> Nil) as [Hq|(r & -> & Hr)].
  { destruct fn as [[]|[]]; simpl; eauto; right; eexists; split; done. }
  - split; intros Hrun Hv.
    + rewrite (all_quiet_result Xgo.Catch [fn] n (Catch_gcode n) (Catch_silent n)
                 (proj2 (Forall_singleton quiet fn) Hq) h sched c v Hrun Hv).
      by destruct fn as [[]|[]].
    + rewrite (all_quiet_result Part001.Recover [fn] n (Recover_gcode n) (Recover_silent n)
                 (proj2 (Forall_singleton quiet fn) Hq) h sched c v Hrun Hv).
      by destruct fn as [[]|[]].
  - split; intros Hrun Hv.
    + destruct (one_fault_result Xgo.Catch [Panicked r] n 0 r (captured r)
                  (Catch_gcode n) (Catch_silent n)
                  (fun h' Hn => Catch_leaves n r h' Hr Hn) eq_refl
                  (single_unit_quiet _) h sched c Hrun) as [Hres _].
      rewrite (Hres v Hv). by destruct r.
    + destruct (one_fault_result Part001.Recover [Panicked r] n 0 r (captured r)
                  (Recover_gcode n) (Recover_silent n)
                  (fun h' Hn => Recover_leaves n r h' Hr Hn) eq_refl
                  (single_unit_quiet _) h sched c Hrun) as [Hres _].
      rewrite (Hres v Hv). by destruct r.
Qed.

Lemma Async_single_is_Call_witness :
  outcome_of (Xgo.Call (Panicked (Str "boom"))) (Shared (fun _ => None) 0 0)
  = Some (Returned (Some (errorString "boom"))).
Proof.
  destruct (Async_single_is_Call (Panicked (Str "boom")) (fun _ => None) 0
              [0; 0; 0; 1; 1; 1; 1; 1; 0; 0]
              (Cfg (Ret (Some (errorString "boom"))) None [(Ret tt, None)]
                   (Shared (<[0 := Some (errorString "boom")]> (<[0 := None]> (fun _ => None)))
                           1 0))
              (Some (errorString "boom")) (Shared (fun _ => None) 0 0)) as [H _].
  exact (H eq_refl eq_refl).
Defined.

(** ** [In] and [Exclude] for every comparable type

    Go's [==] on a comparable type is not always equality: a float NaN is
    not equal to itself, and comparing two interface values that hold
    values of one incomparable dynamic type panics. Here the comparison is
    any function that returns a boolean or panics. *)
Module Comparable.
Section compared.
Context {T : Type}.
Variable zero : T.
Variable equal : T -> T -> outcome bool.   (* v == v2 *)

(** [In(v, value...)]. *)
Fixpoint In (v : T) (value : list T) : outcome bool :=
  match value with
  | [] => Returned false
  | v2 :: rest =>
      and_then (equal v v2) (fun b => if b then Returned true else In v rest)
  end.

(** [Exclude(v, vv...)]. *)
Definition Exclude (v : T) (vv : list T) : outcome T :=
  and_then (In v vv) (fun b => Returned (if b then zero else v)).

(** The comparisons of [v] with all of [ws] return false. *)
Definition differs (v : T) (ws : list T) : Prop :=
  Forall (fun w => equal v w = Returned false) ws.

Lemma In_skip (v : T) (before rest : list T) :
  differs v before -> In v (before ++ rest) = In v rest.
Proof.
  induction 1 as [|w before Hw _ IH]; simpl; [done|]. by rewrite Hw.
Qed.

(** How a call of [In] ends is how the first comparison that does not
    return false ends, and false if there is none. *)
Lemma In_decided (v : T) (value : list T) :
  (In v value = Returned false /\ differs v value) \/
  (exists before v2 after,
      value = before ++ v2 :: after /\ differs v before /\
      equal v v2 <> Returned false /\
      In v value = equal v v2).
Proof.
  induction value as [|w rest IH]; simpl; [left; by split; [|constructor]|].
  destruct (equal v w) as [[]|r] eqn:Hw; simpl.
  - right. exists [], w, rest. rewrite Hw. split_and!; try done. constructor.
  - destruct IH as [[Hf Hd]|(before & v2 & after & -> & Hd & Hne & Hin)].
    + left. split; [done|]. by constructor.
    + right. exists (w :: before), v2, after. split_and!; try done. by constructor.
  - right. exists [], w, rest. rewrite Hw. split_and!; try done. constructor.
Qed.

Lemma In_false (v : T) (value : list T) :
  In v value = Returned false <-> differs v value.
Proof.
  split.
  - intros Hin. destruct (In_decided v value)
      as [[_ Hd]|(before & v2 & after & _ & _ & Hne & Heq)]; [done|]. congruence.
  - intros Hd. rewrite <- (app_nil_r value). by rewrite In_skip.
Qed.

(** X1. [In] returns true exactly when some listed value compares equal to
    the value after all listed values before it compared unequal; it
    returns false exactly when every listed value compares unequal; and it
    panics exactly when a comparison panics after all earlier ones returned
    false. So for a value that is not equal to itself [In] is false though
    the value is listed. *)
Theorem In_compares (v : T) (value : list T) :
  (In v value = Returned true <->
   exists before v2 after,
     value = before ++ v2 :: after /\ differs v before /\
     equal v v2 = Returned true) /\
  (In v value = Returned false <-> differs v value) /\
  (forall r,
      In v value = Panicked r <->
      exists before v2 after,
        value = before ++ v2 :: after /\ differs v before /\
        equal v v2 = Panicked r).
Proof.
  assert (forall o, o <> Returned false ->
            (In v value = o <->
             exists before v2 after,
               value = before ++ v2 :: after /\ differs v before /\ equal v v2 = o)) as H.
  { intros o Ho. split.
    - intros Hin. destruct (In_decided v value)
        as [[Hf _]|(before & v2 & after & Hv & Hd & _ & Heq)]; [congruence|].
      exists before, v2, after. split_and!; try done. congruence.
    - intros (before & v2 & after & -> & Hd & Heq).
      rewrite In_skip by done. simpl. rewrite Heq. destruct o as [[]|r]; done. }
  split_and!; [by apply H|apply In_false|intros r; by apply H].
Qed.

(** X5. When [Exclude] returns a value other than the zero value, that
    value is the argument, and every excluded value compared unequal to it
    (for a value that is not equal to itself, also when it is listed). *)
Theorem Exclude_compares (v x : T) (vv : list T) :
  Exclude v vv = Returned x ->
  x <> zero ->
  x = v /\ differs v vv.
Proof.
  unfold Exclude. destruct (In v vv) as [[]|r] eqn:Hin; simpl; intros [= <-] Hx; [done|].
  split; [done|]. by apply In_false.
Qed.

End compared.

(** With equality as the comparison these are [Generic.In] and
    [Generic.Exclude]. *)
Lemma In_plain {T : Type} `{EqDecision T} (v : T) (value : list T) :
  In (fun a b => Returned (bool_decide (a = b))) v value
  = Returned (Generic.In v value).
Proof.
  induction value as [|w rest IH]; simpl; [done|]. by case_bool_decide.
Qed.

Lemma Exclude_plain {T : Type} `{EqDecision T} (zero v : T) (vv : list T) :
  Exclude zero (fun a b => Returned (bool_decide (a = b))) v vv
  = Returned (Generic.Exclude zero v vv).
Proof. unfold Exclude, Generic.Exclude. rewrite In_plain. by destruct (Generic.In v vv). Qed.

End Comparable.

(** A comparison that is not reflexive, as [==] on floats: [None] stands
    for NaN. *)
Definition float_like_equal (a b : option nat) : outcome bool :=
  match a, b with
  | Some x, Some y => Returned (bool_decide (x = y))
  | _, _ => Returned false
  end.

Lemma Comparable_Exclude_compares_witness :
  @None nat = None /\
  Comparable.differs float_like_equal None [Some 1; None].
Proof.
  apply (Comparable.Exclude_compares (Some 0) float_like_equal None None [Some 1; None]).
  - reflexivity.
  - discriminate.
Defined.
